(** * gotinydb: filters, index selection, range lookups, index references
    and the versioned record store

  A shallow embedding of the Go sources
    - [filters.go]            (package gotinydb)
    - [index_internal.go]     (package gotinydb)
    - the [Index] file        (package gotinydb, [DoesFilterApplyToIndex])
    - [collection/meta.go]    (package collection)
  and of the revision store exercised by [TestRollback] in
  [collections_test.go]. *)

From Stdlib Require Import ZArith Lia.
From Stdlib Require Import Floats.SpecFloat.
From stdpp Require Import gmap strings list pretty.

Local Open Scope Z_scope.

(** ** Go run-time outcomes *)

(** The Go errors the embedded functions hand back. [ErrWrongType] is the
  package variable of [filters.go]; the others are the error kinds of the
  store. *)
Inductive error : Type :=
| ErrWrongType
| ErrNotFound
| ErrRevisionOutOfRange
| ErrCorruption
| ErrEngine.

(** Run-time panics of the Go runtime that the embedded code can raise. *)
Inductive panic : Type :=
| IndexOutOfRange
| SliceBoundsOutOfRange.

(** What a call does: it returns a value, returns a non-nil [error], or
  panics. *)
Inductive outcome (A : Type) : Type :=
| Returned (a : A)
| Failed (e : error)
| Panicked (p : panic).

Arguments Returned {A} a.
Arguments Failed {A} e.
Arguments Panicked {A} p.

(** ** Dynamically typed Go values *)

(** [time.Time]: seconds and nanoseconds since January 1, year 1 UTC, and a
  location name. *)
Record Time : Type := mkTime { sec : Z; nsec : Z; loc : string }.

(** [t.IsZero()]: the instant is January 1, year 1, 00:00:00 UTC. *)
Definition IsZero (t : Time) : bool := (sec t =? 0) && (nsec t =? 0).

(** A value of type [interface{}], tagged with its dynamic type. The
  integers carry their mathematical value. *)
Inductive GoValue : Type :=
| GoString (s : string)
| GoInt (n : Z)
| GoInt8 (n : Z)
| GoInt16 (n : Z)
| GoInt32 (n : Z)
| GoInt64 (n : Z)
| GoUint (n : Z)
| GoUint8 (n : Z)
| GoUint16 (n : Z)
| GoUint32 (n : Z)
| GoUint64 (n : Z)
| GoFloat32 (x : spec_float)
| GoFloat64 (x : spec_float)
| GoTime (t : Time)
| GoBytes (b : list Byte.byte)
| GoBool (b : bool)
| GoNil.

(** ** Index types *)

Module Vars.

(** Modelled from the spec: the declaration of [IndexType] is not among
    the sources; the spec lists the declared scalar types as
    String, Int, Uint, Time and Bytes. The sources name [StringIndex],
    [IntIndex], [TimeIndex] and [BytesIndex]. *)
Inductive IndexType : Type :=
  | StringIndex
  | IntIndex
  | UIntIndex
  | TimeIndex
  | BytesIndex.

#[global] Instance IndexType_eq_dec : EqDecision IndexType.
Proof. solve_decision. Defined.

End Vars.

Export Vars.

(** ** filters.go *)

Module Filters.

Inductive FilterOperator : Type :=
  | Equal
  | Greater
  | Less
  | Between.

#[global] Instance FilterOperator_eq_dec : EqDecision FilterOperator.
Proof. solve_decision. Defined.

(** [filterValue]: the index type tag and the value as given. *)
Record filterValue : Type := mkFilterValue {
  Type_ : IndexType;
  Value : GoValue
}.

(** [Filter]. [values] is a Go slice: [None] is the nil slice that
    [NewFilter] leaves, [Some l] a non-nil slice. *)
Record Filter : Type := mkFilter {
  operator : FilterOperator;
  selector : list string;
  selectorHash : Z;
  equal : bool;
  values : option (list filterValue)
}.

Definition with_values (f : Filter) (vs : list filterValue) : Filter :=
  {| operator := operator f; selector := selector f;
     selectorHash := selectorHash f; equal := equal f;
     values := Some vs |}.

(** [NewFilter]. *)
Definition NewFilter (t : FilterOperator) : Filter :=
  {| operator := t; selector := []; selectorHash := 0; equal := false;
     values := None |}.

(** [newfilterValue]: the type switch on the dynamic type of [value]. *)
Definition newfilterValue (value : GoValue) : outcome filterValue :=
  match value with
  | GoString _ => Returned (mkFilterValue StringIndex value)
  | GoInt _ | GoInt8 _ | GoInt16 _ | GoInt32 _ | GoInt64 _
  | GoUint _ | GoUint8 _ | GoUint16 _ | GoUint32 _ | GoUint64 _ =>
      Returned (mkFilterValue IntIndex value)
  | GoTime _ => Returned (mkFilterValue TimeIndex value)
  | _ => Failed ErrWrongType
  end.

(** [Filter.CompareTo]. The method returns the receiver only: there
    is no error component in its result. *)
Definition CompareTo (f : Filter) (val : GoValue) : Filter :=
  match newfilterValue val with
  | Returned filterValuePointer =>
      match values f with
      | None => with_values f [filterValuePointer]
      | Some vs =>
          if decide (operator f <> Between)
          then with_values f [filterValuePointer]
          else
            (* if len(f.values) >= 2 { f.values[1] = filterValuePointer } *)
            let vs' :=
              if (2 <=? length vs)%nat
              then <[1%nat := filterValuePointer]> vs
              else vs in
            (* f.values = append(f.values, filterValuePointer) *)
            with_values f (vs' ++ [filterValuePointer])
      end
  | _ => f
  end.

(** [GetType], [EqualWanted]. *)
Definition GetType (f : Filter) : FilterOperator := operator f.

Definition EqualWanted (f : Filter) : Filter :=
  {| operator := operator f; selector := selector f;
     selectorHash := selectorHash f; equal := true;
     values := values f |}.

Section Selector.

(** [buildSelectorHash] is declared in another file of the package. *)
Variable buildSelectorHash : list string -> Z.

(** [SetSelector]. *)
Definition SetSelector (f : Filter) (s : list string) : Filter :=
  {| operator := operator f; selector := s;
     selectorHash := buildSelectorHash s; equal := equal f;
     values := values f |}.

(** The filters a caller can hold: [Filter]'s fields are unexported, so
    every filter comes from [NewFilter] through the methods above. *)
Inductive built : Filter -> Prop :=
  | built_new t : built (NewFilter t)
  | built_compare f val : built f -> built (CompareTo f val)
  | built_equal f : built f -> built (EqualWanted f)
  | built_selector f s : built f -> built (SetSelector f s).

End Selector.

(** The number of values a filter carries ([len(f.values)]). *)
Definition nvalues (f : Filter) : nat :=
  match values f with None => 0%nat | Some vs => length vs end.

(** A run of [CompareTo] calls, first value first. *)
Definition CompareToAll (f : Filter) (vals : list GoValue) : Filter :=
  foldl CompareTo f vals.

(** The tags [newfilterValue] gives. *)
Definition filter_tag (t : IndexType) : Prop :=
  t = StringIndex \/ t = IntIndex \/ t = TimeIndex.

(** The unsigned integer types of Go. *)
Definition unsigned (v : GoValue) : bool :=
  match v with
  | GoUint _ | GoUint8 _ | GoUint16 _ | GoUint32 _ | GoUint64 _ => true
  | _ => false
  end.

(** The dynamic types [newfilterValue] accepts. *)
Definition indexable (v : GoValue) : bool :=
  match newfilterValue v with Returned _ => true | _ => false end.

End Filters.

(** ** The index file: [Index] and [DoesFilterApplyToIndex] *)

Module Indexes.

Import Filters.

(** [Index]: the fields the selection of an index reads. The function
    fields ([getIDsFunc], [getRangeIDsFunc], [getTx]) are closures over the
    database handle. *)
Record Index : Type := mkIndex {
  Name : string;
  Selector : list string;
  Type_ : IndexType
}.

(** The first loop of [DoesFilterApplyToIndex]:
    [for j := range i.Selector { if filter.selector[j] != i.Selector[j] { return false } }].
    [rest] is [i.Selector[j:]]. [Returned None] means the loop ran to its end
    without returning; [filter.selector[j]] panics when [j] is not below
    [len(filter.selector)]. *)
Fixpoint checkSelector (filter_selector : list string) (j : nat)
    (rest : list string) : outcome (option bool) :=
  match rest with
  | [] => Returned None
  | sj :: rest' =>
      match filter_selector !! j with
      | None => Panicked IndexOutOfRange
      | Some fj =>
          if decide (fj <> sj) then Returned (Some false)
          else checkSelector filter_selector (S j) rest'
      end
  end.

(** The second loop:
    [for _, value := range filter.values { if value.Type == i.Type { return true } }]
    followed by [return false]. *)
Fixpoint checkValues (t : IndexType) (vs : list filterValue) : bool :=
  match vs with
  | [] => false
  | value :: vs' =>
      if decide (Filters.Type_ value = t) then true else checkValues t vs'
  end.

(** [Index.DoesFilterApplyToIndex]. Ranging over a nil slice runs no
    iteration. *)
Definition DoesFilterApplyToIndex (i : Index) (filter : Filter) : outcome bool :=
  match checkSelector (selector filter) 0 (Selector i) with
  | Returned (Some b) => Returned b
  | Returned None =>
      Returned (checkValues (Type_ i) (default [] (values filter)))
  | Failed e => Failed e
  | Panicked p => Panicked p
  end.

End Indexes.

(** ** index_internal.go: range lookups over an index bucket *)

Module IndexInternal.

(** A Go [[]byte]. *)
Abbreviation bytes := (list Byte.byte).

#[global] Instance byte_eq_dec : EqDecision Byte.byte := Byte.byte_eq_dec.

(** [bytes.Compare]: lexicographic order on unsigned bytes. *)
Fixpoint bytes_compare (a b : bytes) : comparison :=
  match a, b with
  | [], [] => Eq
  | [], _ :: _ => Lt
  | _ :: _, [] => Gt
  | x :: a', y :: b' =>
      match N.compare (Byte.to_N x) (Byte.to_N y) with
      | Eq => bytes_compare a' b'
      | c => c
      end
  end.

(** The bytes of a string, [[]byte(s)]. *)
Definition key (s : string) : bytes := String.list_byte_of_string s.

(** What is stored under a key of an index bucket: a serialized id list,
    or bytes that do not decode. *)
Inductive stored : Type :=
  | Ids (l : list string)
  | Corrupt.

(** [idsType], reduced to the ids it collects. *)
Record idsType : Type := mkIDs { IDs : list string }.

(** Modelled from the spec: [newIDs] is not among the sources. It decodes
    the bytes read from the bucket; nil bytes give the empty set, bytes that
    do not decode give the Corruption error. *)
Definition newIDs (idsAsByte : option stored) : outcome idsType :=
  match idsAsByte with
  | None => Returned (mkIDs [])
  | Some (Ids l) => Returned (mkIDs l)
  | Some Corrupt => Failed ErrCorruption
  end.

(** Modelled from the spec: [idsType.AddIDs] is not among the sources. The
    spec's [add]: an id already present is kept once, a new id is inserted
    in id-sorted position; [AddIDs] adds every id of the other set. *)
Fixpoint insertID (id : string) (l : list string) : list string :=
  match l with
  | [] => [id]
  | x :: l' =>
      match String.compare id x with
      | Eq => l
      | Lt => id :: l
      | Gt => x :: insertID id l'
      end
  end.

Definition AddIDs (allIDs idsToAdd : idsType) : idsType :=
  mkIDs (foldl (fun acc id => insertID id acc) (IDs allIDs) (IDs idsToAdd)).

(** *** The ordered cursor of the key/value engine *)

(** The content of a bucket in key order. The engine keeps the keys
    strictly increasing and refuses the empty key. *)
Abbreviation bucket := (list (bytes * stored)).

(** Modelled from the spec: the key/value engine is an external
    collaborator; its cursor offers [seek], [next] and [prev]. [pos] is the
    index of the entry the cursor is on, [length entries] when a seek ran
    past the last key. *)
Record cursor : Type := mkCursor { entries : bucket; pos : nat }.

Definition Cursor (b : bucket) : cursor := mkCursor b 0.

(** [Seek]: to the given key, or to the next key when it is absent; a nil
    key is returned when no key follows. *)
Definition Seek (c : cursor) (seek : bytes) : cursor * option (bytes * stored) :=
  match list_find (fun e => bytes_compare (fst e) seek <> Lt) (entries c) with
  | Some (p, e) => (mkCursor (entries c) p, Some e)
  | None => (mkCursor (entries c) (length (entries c)), None)
  end.

(** [Next]: one entry forward; nil at the end, the cursor staying on the
    last entry. *)
Definition Next (c : cursor) : cursor * option (bytes * stored) :=
  if (S (pos c) <? length (entries c))%nat
  then (mkCursor (entries c) (S (pos c)), entries c !! S (pos c))
  else (c, None).

(** [Prev]: one entry backward; nil before the first entry. *)
Definition Prev (c : cursor) : cursor * option (bytes * stored) :=
  match pos c with
  | O => (c, None)
  | S p => (mkCursor (entries c) p, entries c !! p)
  end.

(** [indexType]: the fields [getIDsForRangeOfValues] reads. [getTx] is
    what [i.getTx(false)] followed by the two [Bucket] calls yields: the
    index bucket as the read transaction sees it, or the error. *)
Record Options : Type := mkOptions { InternalQueryLimit : Z }.

Record indexType : Type := mkIndexType {
  Name : string;
  SelectorHash : Z;
  options : Options;
  getTx : outcome bucket
}.

(** The test [limit != nil && bytes.Compare(limit, indexedValue) < 0]
    (with [<= 0] when [keepEqual] is false) that ends the loop. *)
Definition crossed (limit : option bytes) (keepEqual : bool)
    (indexedValue : bytes) : bool :=
  match limit with
  | None => false
  | Some l =>
      match bytes_compare l indexedValue with
      | Lt => true
      | Eq => negb keepEqual
      | Gt => false
      end
  end.

(** The [for { ... }] loop of [getIDsForRangeOfValues]. [None] is the
    model running out of [fuel]; see [getIDsForRangeOfValues_returns]. *)
Fixpoint rangeLoop (fuel : nat)
    (nextFunc : cursor -> cursor * option (bytes * stored))
    (iter : cursor) (limit : option bytes) (keepEqual : bool)
    (InternalQueryLimit : Z) (allIDs : idsType) : option (outcome idsType) :=
  match fuel with
  | O => None
  | S fuel' =>
      match nextFunc iter with
      | (_, None) => Some (Returned allIDs)
      | (iter', Some (indexedValue, idsAsByte)) =>
          match newIDs (Some idsAsByte) with
          | Returned ids =>
              if crossed limit keepEqual indexedValue
              then Some (Returned allIDs)
              else
                let allIDs := AddIDs allIDs ids in
                if Z.of_nat (length (IDs allIDs)) >? InternalQueryLimit
                then
                  if InternalQueryLimit <? 0
                  then Some (Panicked SliceBoundsOutOfRange)
                  else Some (Returned
                         (mkIDs (take (Z.to_nat InternalQueryLimit)
                                      (IDs allIDs))))
                else rangeLoop fuel' nextFunc iter' limit keepEqual
                       InternalQueryLimit allIDs
          | Failed e => Some (Failed e)
          | Panicked p => Some (Panicked p)
          end
      end
  end.

(** [indexType.getIDsForRangeOfValues]. *)
Definition getIDsForRangeOfValues (i : indexType) (indexedValue : bytes)
    (limit : option bytes) (keepEqual increasing : bool)
    : option (outcome idsType) :=
  match getTx i with
  | Returned bucket =>
      let iter := Cursor bucket in
      let '(iter, first) := Seek iter indexedValue in
      match newIDs (snd <$> first) with
      | Returned firstIDsValue =>
          let allIDs := mkIDs [] in
          let allIDs :=
            if bool_decide (fst <$> first = Some indexedValue) && keepEqual
            then AddIDs allIDs firstIDsValue
            else allIDs in
          let nextFunc := if increasing then Next else Prev in
          rangeLoop (S (length bucket)) nextFunc iter limit keepEqual
            (InternalQueryLimit (options i)) allIDs
      | Failed e => Some (Failed e)
      | Panicked p => Some (Panicked p)
      end
  | Failed getTxErr => Some (Failed getTxErr)
  | Panicked p => Some (Panicked p)
  end.

(** [indexType.getIDsForOneValue]. *)
Definition getIDsForOneValue (i : indexType) (indexedValue : bytes)
    : outcome idsType :=
  match getTx i with
  | Returned bucket =>
      let asBytes :=
        snd <$> list_find (fun e => fst e = indexedValue) bucket in
      newIDs (snd <$> asBytes)
  | Failed getTxErr => Failed getTxErr
  | Panicked p => Panicked p
  end.

(** The keys of a bucket are strictly increasing and none is empty. *)
Fixpoint keys_increasing (b : bucket) : bool :=
  match b with
  | [] => true
  | (k, _) :: b' =>
      match b' with
      | [] => true
      | (k', _) :: _ => bool_decide (bytes_compare k k' = Lt)
      end && keys_increasing b'
  end.

Definition bucket_wf (b : bucket) : bool :=
  keys_increasing b && forallb (fun e => negb (bool_decide (fst e = []))) b.

(** The smallest key of the bucket greater than [from], with what is
    stored under it. *)
Definition next_above (b : bucket) (from : bytes) : option (bytes * stored) :=
  snd <$> list_find (fun e => bytes_compare from (fst e) = Lt) b.

End IndexInternal.

(** ** collection/meta.go: index references *)

Module Meta.

(** [x != 0] on a float: false exactly on the two zeros; a NaN differs
    from 0. *)
Definition float_is_zero (x : spec_float) : bool :=
  match x with
  | S754_zero _ => true
  | _ => false
  end.

(** The zero values of the field types. *)
Definition zeroFloat : spec_float := S754_zero false.
Definition zeroTime : Time := mkTime 0 0 "".

(** [IndexReference]: one field per scalar type. *)
Record IndexReference : Type := mkIndexReference {
  IndexName : string;
  StringValue : string;
  IntValue : Z;
  Int8aVlue : Z;
  Int16Value : Z;
  Int32Value : Z;
  Int64Value : Z;
  UintValue : Z;
  Uint8Value : Z;
  Uint16Value : Z;
  Uint32Value : Z;
  Uint64Value : Z;
  Float32Value : spec_float;
  Float64Value : spec_float;
  TimeValue : Time
}.

(** [newIndexReference]: [&IndexReference{IndexName: indexName}], then the
    chain of type assertions sets the one field of the value's type. *)
Definition newIndexReference (indexName : string) (value : GoValue)
    : IndexReference :=
  let z := zeroFloat in
  let t := zeroTime in
  match value with
  | GoString typedValue =>
      mkIndexReference indexName typedValue 0 0 0 0 0 0 0 0 0 0 z z t
  | GoInt typedValue =>
      mkIndexReference indexName "" typedValue 0 0 0 0 0 0 0 0 0 z z t
  | GoInt8 typedValue =>
      mkIndexReference indexName "" 0 typedValue 0 0 0 0 0 0 0 0 z z t
  | GoInt16 typedValue =>
      mkIndexReference indexName "" 0 0 typedValue 0 0 0 0 0 0 0 z z t
  | GoInt32 typedValue =>
      mkIndexReference indexName "" 0 0 0 typedValue 0 0 0 0 0 0 z z t
  | GoInt64 typedValue =>
      mkIndexReference indexName "" 0 0 0 0 typedValue 0 0 0 0 0 z z t
  | GoUint typedValue =>
      mkIndexReference indexName "" 0 0 0 0 0 typedValue 0 0 0 0 z z t
  | GoUint8 typedValue =>
      mkIndexReference indexName "" 0 0 0 0 0 0 typedValue 0 0 0 z z t
  | GoUint16 typedValue =>
      mkIndexReference indexName "" 0 0 0 0 0 0 0 typedValue 0 0 z z t
  | GoUint32 typedValue =>
      mkIndexReference indexName "" 0 0 0 0 0 0 0 0 typedValue 0 z z t
  | GoUint64 typedValue =>
      mkIndexReference indexName "" 0 0 0 0 0 0 0 0 0 typedValue z z t
  | GoFloat32 typedValue =>
      mkIndexReference indexName "" 0 0 0 0 0 0 0 0 0 0 typedValue z t
  | GoFloat64 typedValue =>
      mkIndexReference indexName "" 0 0 0 0 0 0 0 0 0 0 z typedValue t
  | GoTime typedValue =>
      mkIndexReference indexName "" 0 0 0 0 0 0 0 0 0 0 z z typedValue
  | _ =>
      mkIndexReference indexName "" 0 0 0 0 0 0 0 0 0 0 z z t
  end.

(** [IndexReference.GetValue]: the first field that differs from its zero
    value, as an [interface{}]; [None] is the nil interface. *)
Definition GetValue (ref : IndexReference) : option GoValue :=
  if negb (bool_decide (StringValue ref = "")) then Some (GoString (StringValue ref))
  else if negb (IntValue ref =? 0) then Some (GoInt (IntValue ref))
  else if negb (Int8aVlue ref =? 0) then Some (GoInt8 (Int8aVlue ref))
  else if negb (Int16Value ref =? 0) then Some (GoInt16 (Int16Value ref))
  else if negb (Int32Value ref =? 0) then Some (GoInt32 (Int32Value ref))
  else if negb (Int64Value ref =? 0) then Some (GoInt64 (Int64Value ref))
  else if negb (UintValue ref =? 0) then Some (GoUint (UintValue ref))
  else if negb (Uint8Value ref =? 0) then Some (GoUint8 (Uint8Value ref))
  else if negb (Uint16Value ref =? 0) then Some (GoUint16 (Uint16Value ref))
  else if negb (Uint32Value ref =? 0) then Some (GoUint32 (Uint32Value ref))
  else if negb (Uint64Value ref =? 0) then Some (GoUint64 (Uint64Value ref))
  else if negb (float_is_zero (Float32Value ref)) then Some (GoFloat32 (Float32Value ref))
  else if negb (float_is_zero (Float64Value ref)) then Some (GoFloat64 (Float64Value ref))
  else if negb (IsZero (TimeValue ref)) then Some (GoTime (TimeValue ref))
  else None.

(** The scalar types [newIndexReference] has a field for. *)
Definition supported (v : GoValue) : bool :=
  match v with
  | GoBytes _ | GoBool _ | GoNil => false
  | _ => true
  end.

(** [v] is the zero of its type: the empty string, a numeric 0 (for a
    float, either zero), the zero time instant. *)
Definition is_zero_value (v : GoValue) : bool :=
  match v with
  | GoString s => bool_decide (s = "")
  | GoInt n | GoInt8 n | GoInt16 n | GoInt32 n | GoInt64 n
  | GoUint n | GoUint8 n | GoUint16 n | GoUint32 n | GoUint64 n => n =? 0
  | GoFloat32 x | GoFloat64 x => float_is_zero x
  | GoTime t => IsZero t
  | GoBytes _ | GoBool _ | GoNil => false
  end.

End Meta.

(** ** The versioned record store *)

Module Store.

(** A stored revision: the timestamp of the put and the payload. *)
Record revision : Type := mkRevision { timestamp : Z; payload : string }.

(** The revisions of every record id, newest first (the head is the live
    revision), and the timestamp counter of the collection. *)
Record Collection : Type := mkCollection {
  records : gmap string (list revision);
  clock : Z
}.

Definition emptyCollection : Collection := mkCollection ∅ 0.

Section Versioned.

(** The configured revision depth K. *)
Variable RevisionDepth : nat.

(** What a rollback stores for a loaded payload. [TestRollback] reads back
    a re-serialized document after a rollback (keys in alphabetical order). *)
Variable reencode : string -> string.

(** Modelled from the spec: [Collection.Put] is not among the sources.
    Put appends a new revision with a monotonic timestamp and truncates to
    the configured depth. The timestamps count the puts of the collection
    from 1, as [TestRollback] reads them (2 for the second put, 302 for the
    302nd). *)
Definition Put (c : Collection) (id : string) (p : string) : Collection :=
  let ts := clock c + 1 in
  let revs := default [] (records c !! id) in
  mkCollection
    (<[id := take RevisionDepth (mkRevision ts p :: revs)]> (records c)) ts.

(** Modelled from the spec: [Collection.Get] is not among the sources.
    Get(id, 0) returns the live payload, Get(id, N) the Nth previous if it
    exists, else NotFound. *)
Definition Get (c : Collection) (id : string) (revisionIndex : nat)
    : outcome string :=
  match records c !! id with
  | None => Failed ErrNotFound
  | Some revs =>
      match revs !! revisionIndex with
      | Some r => Returned (payload r)
      | None => Failed ErrNotFound
      end
  end.

(** Modelled from the spec: [Collection.Rollback] is not among the
    sources. It loads the revision at offset N, re-puts it as the new live
    revision and returns the timestamp of the restored revision; beyond the
    stored revisions it fails with RevisionOutOfRange and leaves the state
    unchanged. The offset counts the previous revisions from 0, which is
    what [TestRollback] fixes: with revisions 2, 302 and 602 stored for id
    1, Rollback(1, 0) returns 302 and the next Get returns that payload. *)
Definition Rollback (c : Collection) (id : string) (N : nat)
    : outcome Z * Collection :=
  match records c !! id with
  | None => (Failed ErrNotFound, c)
  | Some revs =>
      match revs !! S N with
      | None => (Failed ErrRevisionOutOfRange, c)
      | Some r => (Returned (timestamp r), Put c id (reencode (payload r)))
      end
  end.

(** Modelled from the spec: the same operation with the offsets as the
    spec words them, revision 0 being the live one. *)
Definition Rollback_as_worded (c : Collection) (id : string) (N : nat)
    : outcome Z * Collection :=
  match records c !! id with
  | None => (Failed ErrNotFound, c)
  | Some revs =>
      match revs !! N with
      | None => (Failed ErrRevisionOutOfRange, c)
      | Some r => (Returned (timestamp r), Put c id (reencode (payload r)))
      end
  end.

(** A run of puts, as the loops of the tests do. *)
Definition PutAll (c : Collection) (l : list (string * string)) : Collection :=
  foldl (fun c e => Put c (fst e) (snd e)) c l.

(** The number of previous revisions stored for [id]. *)
Definition previous (c : Collection) (id : string) : nat :=
  match records c !! id with
  | None => 0%nat
  | Some revs => Nat.pred (length revs)
  end.

End Versioned.

(** A data set in the shape of the tests': [n] users with ids 0, 1, ...
    in this order, the payload of a user carrying the tag of the set. *)
Definition dataSet (tag : string) (n : nat) : list (string * string) :=
  map (fun k : nat => (pretty k, tag +:+ pretty k)) (seq 0 n).

(** The state [TestRollback] reaches before its first rollback: three data
    sets of 300 users put one after the other, default depth 10. *)
Definition afterThreeDataSets : Collection :=
  PutAll 10 (PutAll 10 (PutAll 10 emptyCollection (dataSet "A" 300))
               (dataSet "B" 300)) (dataSet "C" 300).

End Store.

(** ** The index file: the references of an object *)

Module References.

Import IndexInternal.

(** [Ref]: an index name with the value indexed under it. *)
Record Ref : Type := mkRef {
  IndexName : string;
  IndexedValue : bytes
}.

(** [Refs]: the references of one object. The field [Refs] of the source
    is [RefsList] here; it holds pointers, none of them nil when the value
    comes from [NewRefs] and [SetIndexedValue]. *)
Record Refs : Type := mkRefs {
  ObjectID : string;
  ObjectHashID : string;
  RefsList : list Ref
}.

(** [NewRefs]. *)
Definition NewRefs : Refs := mkRefs "" "" [].

(** [Refs.IDasBytes]. *)
Definition IDasBytes (r : Refs) : bytes := key (ObjectHashID r).

(** The loop of [SetIndexedValue]: the first reference of that index name
    gets the value and the method returns; [None] when the loop ends
    without a match. *)
Fixpoint setFirst (indexName : string) (indexedVal : bytes)
    (refs : list Ref) : option (list Ref) :=
  match refs with
  | [] => None
  | ref :: refs' =>
      if decide (IndexName ref = indexName)
      then Some (mkRef (IndexName ref) indexedVal :: refs')
      else cons ref <$> setFirst indexName indexedVal refs'
  end.

(** [Refs.SetIndexedValue]. *)
Definition SetIndexedValue (r : Refs) (indexName : string)
    (indexedVal : bytes) : Refs :=
  match setFirst indexName indexedVal (RefsList r) with
  | Some refs => mkRefs (ObjectID r) (ObjectHashID r) refs
  | None =>
      mkRefs (ObjectID r) (ObjectHashID r)
        (RefsList r ++ [mkRef indexName indexedVal])
  end.

(** The value recorded for an index: that of the first reference with the
    name. *)
Definition indexedValueOf (r : Refs) (indexName : string) : option bytes :=
  (fun e => IndexedValue (snd e))
    <$> list_find (fun ref => IndexName ref = indexName) (RefsList r).

(** The index names of the references, in order. *)
Definition indexNames (r : Refs) : list string := IndexName <$> RefsList r.

End References.

(** ** The entries a range lookup goes through *)

Module RangeScan.

Import IndexInternal.

(** The body of the loop of [getIDsForRangeOfValues], run over the entries
    the cursor is going to hand out, in the order it hands them out. *)
Fixpoint collect (upcoming : bucket) (limit : option bytes)
    (keepEqual : bool) (InternalQueryLimit : Z) (allIDs : idsType)
    : outcome idsType :=
  match upcoming with
  | [] => Returned allIDs
  | (indexedValue, idsAsByte) :: upcoming' =>
      match newIDs (Some idsAsByte) with
      | Returned ids =>
          if crossed limit keepEqual indexedValue
          then Returned allIDs
          else
            let allIDs := AddIDs allIDs ids in
            if Z.of_nat (length (IDs allIDs)) >? InternalQueryLimit
            then
              if InternalQueryLimit <? 0
              then Panicked SliceBoundsOutOfRange
              else Returned
                     (mkIDs (take (Z.to_nat InternalQueryLimit)
                                  (IDs allIDs)))
            else collect upcoming' limit keepEqual InternalQueryLimit allIDs
      | Failed e => Failed e
      | Panicked p => Panicked p
      end
  end.

(** What the cursor hands out from position [p] on: the entries after it
    going forward, the entries before it, last first, going backward. *)
Definition upcoming (increasing : bool) (b : bucket) (p : nat) : bucket :=
  if increasing then drop (S p) b else reverse (take p b).

(** The number of ids stored in a bucket, key by key. *)
Fixpoint idCount (b : bucket) : nat :=
  match b with
  | [] => 0%nat
  | (_, Ids l) :: b' => (length l + idCount b')%nat
  | (_, Corrupt) :: b' => idCount b'
  end.

(** Every entry of the bucket decodes. *)
Definition decodes (b : bucket) : Prop :=
  Forall (fun e => snd e <> Corrupt) b.

(** [id] is stored under the key [k]. *)
Definition stored_under (b : bucket) (k : bytes) (id : string) : Prop :=
  exists l, (k, Ids l) ∈ b /\ id ∈ l.

(** The keys a lookup from [from] is after: the start key itself when
    [keepEqual] is set, and the keys on the side of the direction that the
    end key, if any, lets through. *)
Definition in_range (from : bytes) (limit : option bytes)
    (keepEqual increasing : bool) (k : bytes) : Prop :=
  (k = from /\ keepEqual = true) \/
  (bytes_compare from k = (if increasing then Lt else Gt) /\
   crossed limit keepEqual k = false).

End RangeScan.

(** ** index_internal.go: the queries of an index *)

Module IndexQueries.

Import Filters IndexInternal.

Section Codec.

(** [stringToBytes], [intToBytes] and [timeToBytes] are declared in
    another file of the package. Each returns the bytes and an error;
    [Bytes] drops the error, so only the bytes count here, [None] being the
    nil slice. *)
Variable stringToBytes : GoValue -> option bytes.
Variable intToBytes : GoValue -> option bytes.
Variable timeToBytes : GoValue -> option bytes.

(** [filterValue.Bytes]. *)
Definition Bytes (f : filterValue) : option bytes :=
  match Type_ f with
  | StringIndex => stringToBytes (Value f)
  | IntIndex => intToBytes (Value f)
  | TimeIndex => timeToBytes (Value f)
  | _ => None
  end.

(** A slice handed to the cursor as the key to seek: the nil slice seeks
    like the empty key. *)
Definition asKey (b : option bytes) : bytes := default [] b.

(** What a query does with the outcome of its lookup: on an error it logs
    and returns, the ids as they were; otherwise [ids.AddIDs(tmpIDs)]. *)
Definition addLookup (ids : idsType) (lookup : option (outcome idsType))
    : option (outcome idsType) :=
  match lookup with
  | None => None
  | Some (Returned tmpIDs) => Some (Returned (AddIDs ids tmpIDs))
  | Some (Failed getIdsErr) => Some (Returned ids)
  | Some (Panicked p) => Some (Panicked p)
  end.

(** [indexType.queryGreaterLess]. The result is the id set [ids] points
    to when the method returns. [filter.values[0]] panics on a filter
    without values. *)
Definition queryGreaterLess (i : indexType) (ids : idsType)
    (filter : Filter) : option (outcome idsType) :=
  let greater := if decide (GetType filter = Less) then false else true in
  match default [] (values filter) !! 0%nat with
  | None => Some (Panicked IndexOutOfRange)
  | Some value0 =>
      addLookup ids
        (getIDsForRangeOfValues i (asKey (Bytes value0)) None
           (equal filter) greater)
  end.

(** [indexType.queryBetween]. *)
Definition queryBetween (i : indexType) (ids : idsType)
    (filter : Filter) : option (outcome idsType) :=
  let vs := default [] (values filter) in
  if (length vs <? 2)%nat then Some (Returned ids)
  else
    match vs !! 0%nat, vs !! 1%nat with
    | Some value0, Some value1 =>
        addLookup ids
          (getIDsForRangeOfValues i (asKey (Bytes value0)) (Bytes value1)
             (equal filter) true)
    | _, _ => Some (Panicked IndexOutOfRange)
    end.

End Codec.

End IndexQueries.

(** ** The index file: which values an index takes *)

Module IndexApply.

Import IndexInternal Indexes.

Section Conversions.

(** [vars.StringToBytes], [vars.IntToBytes] and [vars.TimeToBytes] are
    declared in another package: each gives the bytes of a value or an
    error. *)
Variable StringToBytes : GoValue -> outcome bytes.
Variable IntToBytes : GoValue -> outcome bytes.
Variable TimeToBytes : GoValue -> outcome bytes.

(** [Index.testType]. [Returned (Some content)] is [(content, true)],
    [Returned None] is [(nil, false)]. *)
Definition testType (i : Index) (value : GoValue) : outcome (option bytes) :=
  let convert (conversionFunc : GoValue -> outcome bytes) :=
    match conversionFunc value with
    | Returned contentToIndex => Returned (Some contentToIndex)
    | Failed err => Returned None
    | Panicked p => Panicked p
    end in
  match Indexes.Type_ i with
  | StringIndex => convert StringToBytes
  | IntIndex => convert IntToBytes
  | TimeIndex => convert TimeToBytes
  | BytesIndex =>
      match value with
      | GoBytes contentToIndex => Returned (Some contentToIndex)
      | _ => Returned None
      end
  | _ => Returned None
  end.

End Conversions.

End IndexApply.

(** ** collection/meta.go: references without a value *)

Module MetaEmpty.

Import Meta.

(** Every value field of the reference is the zero of its type. *)
Definition allZero (ref : IndexReference) : Prop :=
  StringValue ref = "" /\
  IntValue ref = 0 /\ Int8aVlue ref = 0 /\ Int16Value ref = 0 /\
  Int32Value ref = 0 /\ Int64Value ref = 0 /\
  UintValue ref = 0 /\ Uint8Value ref = 0 /\ Uint16Value ref = 0 /\
  Uint32Value ref = 0 /\ Uint64Value ref = 0 /\
  float_is_zero (Float32Value ref) = true /\
  float_is_zero (Float64Value ref) = true /\
  IsZero (TimeValue ref) = true.

End MetaEmpty.

(** * Properties *)

(** Case analysis on the condition of the first [if] of the goal. *)
Ltac case_if :=
  match goal with
  | |- context [if ?c then _ else _] => destruct c eqn:?
  end.

(** ** Filter values and [CompareTo] *)

Section FilterFacts.

Import Filters.

Lemma newfilterValue_tag v fv :
  newfilterValue v = Returned fv -> filter_tag (Type_ fv) /\ Value fv = v.
Proof.
  unfold filter_tag.
  destruct v; simpl; intros H; inversion H; subst; simpl; auto.
Qed.

(** An unsigned integer is tagged with the signed integer index type. *)
Lemma newfilterValue_unsigned v :
  unsigned v = true -> newfilterValue v = Returned (mkFilterValue IntIndex v).
Proof. destruct v; try discriminate; reflexivity. Qed.

Lemma newfilterValue_no_panic v p : newfilterValue v <> Panicked p.
Proof. destruct v; discriminate. Qed.

Lemma newfilterValue_error v e : newfilterValue v = Failed e -> e = ErrWrongType.
Proof. destruct v; simpl; intros H; inversion H; reflexivity. Qed.

Lemma indexable_returns v :
  indexable v = true -> exists fv, newfilterValue v = Returned fv.
Proof.
  unfold indexable. destruct (newfilterValue v) as [fv| |]; try discriminate.
  intros _. now exists fv.
Qed.

Lemma not_indexable_fails v :
  indexable v = false -> newfilterValue v = Failed ErrWrongType.
Proof.
  unfold indexable. destruct (newfilterValue v) as [fv|e|p] eqn:E; try discriminate.
  - intros _. now rewrite (newfilterValue_error _ _ E).
  - now destruct (newfilterValue_no_panic _ _ E).
Qed.

(** One accepted value on a filter that is not a Between filter leaves
    exactly that value. *)
Lemma CompareTo_not_between f val fv :
  operator f <> Between -> newfilterValue val = Returned fv ->
  values (CompareTo f val) = Some [fv].
Proof.
  intros Hop Hv. unfold CompareTo. rewrite Hv.
  destruct (values f); [|reflexivity].
  destruct (decide (operator f <> Between)); [reflexivity|contradiction].
Qed.

(** On a Between filter that already has a slice of values, an accepted
    value is appended whatever the length of the slice. *)
Lemma CompareTo_between_appends f val fv vs :
  operator f = Between -> values f = Some vs ->
  newfilterValue val = Returned fv ->
  nvalues (CompareTo f val) = S (length vs).
Proof.
  intros Hop Hvs Hv. unfold nvalues, CompareTo. rewrite Hv, Hvs.
  destruct (decide (operator f <> Between)) as [n|_]; [congruence|].
  destruct (2 <=? length vs)%nat; simpl;
    rewrite length_app, ?length_insert; simpl; lia.
Qed.

Lemma CompareTo_operator f val : operator (CompareTo f val) = operator f.
Proof.
  unfold CompareTo. destruct (newfilterValue val); try reflexivity.
  destruct (values f); [|reflexivity].
  destruct (decide _); reflexivity.
Qed.

Lemma CompareTo_selector f val : selector (CompareTo f val) = selector f.
Proof.
  unfold CompareTo. destruct (newfilterValue val); try reflexivity.
  destruct (values f); [|reflexivity].
  destruct (decide _); reflexivity.
Qed.

(** Every accepted value of a run of calls on a Between filter adds one
    element: the slice grows without bound. *)
Lemma CompareToAll_between_nvalues vals f :
  operator f = Between -> forallb indexable vals = true ->
  nvalues (CompareToAll f vals) = (nvalues f + length vals)%nat.
Proof.
  unfold CompareToAll. revert f.
  induction vals as [|val vals IH]; intros f Hop Hall; simpl.
  - lia.
  - apply andb_prop in Hall as [Hval Hall].
    destruct (indexable_returns _ Hval) as [fv Hfv].
    rewrite IH by (rewrite ?CompareTo_operator; assumption).
    destruct (values f) as [vs|] eqn:Hvs.
    + rewrite (CompareTo_between_appends f val fv vs Hop Hvs Hfv).
      unfold nvalues. rewrite Hvs. lia.
    + unfold nvalues at 1 2. unfold CompareTo. rewrite Hfv, Hvs. simpl. lia.
Qed.

(** On a filter that is not a Between filter a non-empty run of accepted
    values leaves exactly one value. *)
Lemma CompareToAll_not_between_nvalues vals f :
  operator f <> Between -> vals <> [] -> forallb indexable vals = true ->
  nvalues (CompareToAll f vals) = 1%nat.
Proof.
  unfold CompareToAll. revert f.
  induction vals as [|val vals IH]; intros f Hop Hne Hall; [contradiction|].
  simpl in *. apply andb_prop in Hall as [Hval Hall].
  destruct (indexable_returns _ Hval) as [fv Hfv].
  destruct vals as [|val' vals].
  - simpl. unfold nvalues. now rewrite (CompareTo_not_between f val fv Hop Hfv).
  - apply IH; [now rewrite CompareTo_operator|discriminate|assumption].
Qed.

End FilterFacts.

(** ** Which filters an index answers *)

Section IndexFacts.

Import Filters Indexes.

Variable buildSelectorHash : list string -> Z.

(** Every value of a filter obtained through the methods was tagged by
    [newfilterValue]. *)
Lemma built_values_tagged f :
  built buildSelectorHash f ->
  Forall (fun fv => filter_tag (Filters.Type_ fv)) (default [] (values f)).
Proof.
  induction 1 as [t|f val Hb IH|f Hb IH|f s Hb IH]; simpl; auto.
  unfold CompareTo.
  destruct (newfilterValue val) as [fv| |] eqn:Hv; auto.
  apply newfilterValue_tag in Hv as [Htag _].
  assert (Hone : Forall (fun fv => filter_tag (Filters.Type_ fv)) [fv])
    by (constructor; [assumption|constructor]).
  destruct (values f) as [vs|]; simpl in *; [|assumption].
  destruct (decide (operator f <> Between)); simpl; [assumption|].
  apply Forall_app. split; [|assumption].
  match goal with |- context [if ?c then _ else _] => destruct c end;
    [|assumption].
  now apply Forall_insert.
Qed.

Lemma checkValues_true t vs :
  checkValues t vs = true <-> exists fv, fv ∈ vs /\ Filters.Type_ fv = t.
Proof.
  induction vs as [|v vs IH]; simpl.
  - split; [discriminate|]. intros (fv & Hin & _). inversion Hin.
  - destruct (decide (Filters.Type_ v = t)) as [Heq|Hne].
    + split; [|reflexivity]. intros _. exists v. split; [left|assumption].
    + rewrite IH. split.
      * intros (fv & Hin & Ht). exists fv. split; [now right|assumption].
      * intros (fv & Hin & Ht). inversion Hin; subst; [contradiction|].
        now exists fv.
Qed.

(** The selector loop runs to its end exactly when the index selector, from
    [j] on, is a prefix of the filter selector from [j] on. *)
Lemma checkSelector_done fsel rest j :
  checkSelector fsel j rest = Returned None <-> rest `prefix_of` drop j fsel.
Proof.
  revert j. induction rest as [|s rest IH]; intros j; simpl.
  - split; [intros _; apply prefix_nil|reflexivity].
  - destruct (fsel !! j) as [x|] eqn:Hj.
    + rewrite (drop_S _ _ _ Hj).
      destruct (decide (x <> s)) as [Hne|Heq].
      * split; [discriminate|]. intros Hp.
        apply prefix_cons_inv_1 in Hp. congruence.
      * apply dec_stable in Heq. subst x. rewrite IH. split.
        -- apply prefix_cons.
        -- apply prefix_cons_inv_2.
    + split; [discriminate|].
      rewrite (drop_ge fsel j) by (now apply lookup_ge_None).
      intros Hp. apply prefix_nil_inv in Hp. discriminate.
Qed.

(** It panics exactly when the filter selector, from [j] on, runs out
    first: it is a proper prefix of the index selector from [j] on. *)
Lemma checkSelector_panics fsel rest j p :
  checkSelector fsel j rest = Panicked p <->
  p = IndexOutOfRange /\ drop j fsel `prefix_of` rest /\
  (length (drop j fsel) < length rest)%nat.
Proof.
  revert j. induction rest as [|s rest IH]; intros j; simpl.
  - split; [discriminate|]. intros (_ & _ & Hlt). lia.
  - destruct (fsel !! j) as [x|] eqn:Hj.
    + rewrite (drop_S _ _ _ Hj).
      destruct (decide (x <> s)) as [Hne|Heq].
      * split; [discriminate|]. intros (_ & Hp & _).
        apply prefix_cons_inv_1 in Hp. congruence.
      * apply dec_stable in Heq. subst x. rewrite IH. simpl. split.
        -- intros (Hp & Hpre & Hlt). repeat split; auto.
           ++ now apply prefix_cons.
           ++ lia.
        -- intros (Hp & Hpre & Hlt). repeat split; auto.
           ++ now apply prefix_cons_inv_2 in Hpre.
           ++ lia.
    + rewrite (drop_ge fsel j) by (now apply lookup_ge_None). simpl. split.
      * intros H. inversion H. repeat split; [apply prefix_nil|lia].
      * intros (-> & _). reflexivity.
Qed.

Lemma checkSelector_no_error fsel rest j e :
  checkSelector fsel j rest <> Failed e.
Proof.
  revert j. induction rest as [|s rest IH]; intros j; simpl; [discriminate|].
  destruct (fsel !! j); [|discriminate].
  destruct (decide _); [discriminate|apply IH].
Qed.

(** The only early return of the selector loop is [return false]. *)
Lemma checkSelector_returns fsel rest j b :
  checkSelector fsel j rest = Returned (Some b) -> b = false.
Proof.
  revert j. induction rest as [|s rest IH]; intros j; simpl; [discriminate|].
  destruct (fsel !! j); [|discriminate].
  destruct (decide _); [intros H; now inversion H|apply IH].
Qed.

(** What the code decides: the index answers the filter exactly when the
    index selector is a prefix of the filter selector and one value of the
    filter has the type of the index. *)
Lemma DoesFilterApplyToIndex_true i f :
  DoesFilterApplyToIndex i f = Returned true <->
  Selector i `prefix_of` selector f /\
  exists fv, fv ∈ default [] (values f) /\ Filters.Type_ fv = Indexes.Type_ i.
Proof.
  unfold DoesFilterApplyToIndex.
  destruct (checkSelector (selector f) 0 (Selector i)) as [[b|]|e|p] eqn:E.
  - apply checkSelector_returns in E as Hb. subst b. split; [discriminate|].
    intros [Hp _]. apply (checkSelector_done _ _ 0%nat) in Hp. congruence.
  - apply checkSelector_done in E. rewrite drop_0 in E.
    rewrite <- checkValues_true. split.
    + intros H. inversion H. auto.
    + intros [_ ->]. reflexivity.
  - split; [discriminate|]. intros [Hp _].
    apply (checkSelector_done _ _ 0%nat) in Hp. congruence.
  - split; [discriminate|]. intros [Hp _].
    apply (checkSelector_done _ _ 0%nat) in Hp. congruence.
Qed.

(** The call panics exactly when the filter selector is a proper prefix of
    the index selector. *)
Lemma DoesFilterApplyToIndex_panics i f p :
  DoesFilterApplyToIndex i f = Panicked p <->
  p = IndexOutOfRange /\ selector f `prefix_of` Selector i /\
  (length (selector f) < length (Selector i))%nat.
Proof.
  unfold DoesFilterApplyToIndex.
  rewrite <- (drop_0 (selector f)) at 2 3.
  rewrite <- checkSelector_panics.
  destruct (checkSelector (selector f) 0 (Selector i)) as [[b|]|e|q];
    split; congruence.
Qed.

(** A filter obtained through the methods has no value of the Bytes (or
    unsigned integer) type, so no index of such a type answers it. *)
Lemma DoesFilterApplyToIndex_bytes_never_true i f :
  built buildSelectorHash f -> Indexes.Type_ i = BytesIndex ->
  DoesFilterApplyToIndex i f <> Returned true.
Proof.
  intros Hb Ht H. apply DoesFilterApplyToIndex_true in H as (_ & fv & Hin & Hfv).
  pose proof (built_values_tagged f Hb) as Hall.
  rewrite Forall_forall in Hall. specialize (Hall fv Hin).
  unfold filter_tag in Hall. rewrite Hfv, Ht in Hall.
  destruct Hall as [H|[H|H]]; discriminate.
Qed.

Lemma DoesFilterApplyToIndex_bytes_false i f :
  built buildSelectorHash f -> Indexes.Type_ i = BytesIndex ->
  (length (Selector i) <= length (selector f))%nat ->
  DoesFilterApplyToIndex i f = Returned false.
Proof.
  intros Hb Ht Hlen.
  destruct (DoesFilterApplyToIndex i f) as [[|]|e|p] eqn:E.
  - now destruct (DoesFilterApplyToIndex_bytes_never_true i f Hb Ht).
  - reflexivity.
  - unfold DoesFilterApplyToIndex in E.
    destruct (checkSelector (selector f) 0 (Selector i)) as [[b|]|e'|q] eqn:E';
      try discriminate.
    now destruct (checkSelector_no_error _ _ _ _ E').
  - apply DoesFilterApplyToIndex_panics in E as (_ & _ & Hlt). lia.
Qed.

End IndexFacts.

(** ** Claims on filters and index selection *)

Section FilterClaims.

Import Filters Indexes.

(** C5. A Between filter does not stay within two values: the branch that
    overwrites [f.values[1]] falls through to the [append], so a third
    accepted value leaves three values in the slice. *)
Theorem CompareTo_between_third_value :
  let f := CompareToAll (NewFilter Between) [GoInt 1; GoInt 2; GoInt 3] in
  operator f = Between /\
  values f = Some [mkFilterValue IntIndex (GoInt 1);
                   mkFilterValue IntIndex (GoInt 3);
                   mkFilterValue IntIndex (GoInt 3)] /\
  nvalues f = 3%nat.
Proof. repeat split. Qed.

(** C7, as the code has it: a value whose dynamic type is not an indexable
    scalar makes [newfilterValue] return [ErrWrongType], and [CompareTo]
    drops that error: it returns the filter unchanged. *)
Theorem CompareTo_drops_rejected_value (f : Filter) (val : GoValue) :
  indexable val = false ->
  newfilterValue val = Failed ErrWrongType /\ CompareTo f val = f.
Proof.
  intros H. apply not_indexable_fails in H. split; [assumption|].
  unfold CompareTo. now rewrite H.
Qed.

Lemma CompareTo_drops_rejected_value_witness :
  indexable (GoBool true) = false /\
  newfilterValue (GoBool true) = Failed ErrWrongType /\
  CompareTo (NewFilter Equal) (GoBool true) = NewFilter Equal.
Proof.
  split; [reflexivity|].
  apply (CompareTo_drops_rejected_value (NewFilter Equal) (GoBool true)).
  reflexivity.
Defined.

(** C7, as stated, fails: comparing to the float 1.5 is rejected by
    [newfilterValue], and [CompareTo] hands back the very filter it
    received. *)
Lemma CompareTo_wrong_type_not_fatal :
  let val := GoFloat64 (S754_finite false 3 (-1)) in
  newfilterValue val = Failed ErrWrongType /\
  CompareTo (NewFilter Greater) val = NewFilter Greater.
Proof. split; reflexivity. Qed.

(** C4. The selector loop ranges over the index selector only: an index on
    [Address] answers a filter on [Address.ZipCode], whose selector is not
    element-wise equal to the index's. *)
Theorem DoesFilterApplyToIndex_longer_selector
    (buildSelectorHash : list string -> Z) :
  let i := mkIndex "Address" ["Address"] IntIndex in
  let f := CompareTo
             (SetSelector buildSelectorHash (NewFilter Equal)
                ["Address"; "ZipCode"])
             (GoInt 65) in
  selector f <> Selector i /\ DoesFilterApplyToIndex i f = Returned true.
Proof. split; [discriminate|reflexivity]. Qed.

(** C8. A filter whose selector is shorter than the index selector and
    agrees with it as far as it goes makes [filter.selector[j]] run out of
    range. *)
Theorem DoesFilterApplyToIndex_shorter_selector
    (buildSelectorHash : list string -> Z) :
  let i := mkIndex "ZipCode" ["Address"; "ZipCode"] IntIndex in
  let f := CompareTo
             (SetSelector buildSelectorHash (NewFilter Equal) ["Address"])
             (GoInt 65) in
  selector f !! 1%nat = None /\
  DoesFilterApplyToIndex i f = Panicked IndexOutOfRange.
Proof. split; reflexivity. Qed.

(** C9. On an index of the Bytes type a filter without selector does not
    get [false]: the call panics before it looks at the values. *)
Theorem DoesFilterApplyToIndex_bytes_panics
    (buildSelectorHash : list string -> Z) :
  let i := mkIndex "Raw" ["Raw"] BytesIndex in
  let f := CompareTo (NewFilter Equal) (GoString "x") in
  built buildSelectorHash f /\
  DoesFilterApplyToIndex i f = Panicked IndexOutOfRange.
Proof. split; [repeat constructor|reflexivity]. Qed.

End FilterClaims.

(** ** Range lookups *)

Section RangeFacts.

Import IndexInternal.

Lemma bytes_compare_refl a : bytes_compare a a = Eq.
Proof.
  induction a as [|x a IH]; simpl; [reflexivity|].
  now rewrite N.compare_refl.
Qed.

Lemma bytes_compare_antisym a b :
  bytes_compare b a = CompOpp (bytes_compare a b).
Proof.
  revert b. induction a as [|x a IH]; intros [|y b]; simpl; try reflexivity.
  rewrite (N.compare_antisym (Byte.to_N x) (Byte.to_N y)).
  destruct (Byte.to_N x ?= Byte.to_N y)%N; simpl; auto.
Qed.

(** *** The loop ends: the fuel of the model is never used up *)

(** [Next] seen through what is left of the bucket after the cursor. *)
Lemma Next_drop c :
  Next c =
  match drop (S (pos c)) (entries c) with
  | [] => (c, None)
  | e :: _ => (mkCursor (entries c) (S (pos c)), Some e)
  end.
Proof.
  unfold Next.
  destruct (S (pos c) <? length (entries c))%nat eqn:Hlt.
  - apply Nat.ltb_lt in Hlt.
    destruct (lookup_lt_is_Some_2 _ _ Hlt) as [e He].
    now rewrite (drop_S _ _ _ He), He.
  - apply Nat.ltb_ge in Hlt. now rewrite drop_ge.
Qed.

Lemma rangeLoop_Next_fuel fuel c limit keepEqual q allIDs :
  (length (entries c) - pos c < fuel)%nat ->
  is_Some (rangeLoop fuel Next c limit keepEqual q allIDs).
Proof.
  revert c allIDs.
  induction fuel as [|fuel IH]; intros c allIDs Hfuel; [lia|].
  cbn [rangeLoop]. unfold Next.
  destruct (S (pos c) <? length (entries c))%nat eqn:Hlt; [|eauto].
  apply Nat.ltb_lt in Hlt.
  destruct (entries c !! S (pos c)) as [[k v]|]; [|eauto].
  destruct (newIDs (Some v)); eauto.
  destruct (crossed limit keepEqual k); eauto.
  case_if; [case_if; eauto|].
  apply IH. simpl. lia.
Qed.

Lemma rangeLoop_Prev_fuel fuel c limit keepEqual q allIDs :
  (pos c < fuel)%nat ->
  is_Some (rangeLoop fuel Prev c limit keepEqual q allIDs).
Proof.
  revert c allIDs.
  induction fuel as [|fuel IH]; intros c allIDs Hfuel; [lia|].
  cbn [rangeLoop]. unfold Prev.
  destruct (pos c) as [|p] eqn:Hp; [eauto|].
  destruct (entries c !! p) as [[k v]|]; [|eauto].
  destruct (newIDs (Some v)); eauto.
  destruct (crossed limit keepEqual k); eauto.
  case_if; [case_if; eauto|].
  apply IH. simpl. lia.
Qed.

(** [Seek] leaves the cursor on an entry or just past the last one. *)
Lemma Seek_pos c seek :
  entries (fst (Seek c seek)) = entries c /\
  (pos (fst (Seek c seek)) <= length (entries c))%nat.
Proof.
  unfold Seek.
  destruct (list_find _ (entries c)) as [[p e]|] eqn:Hf; simpl; [|auto].
  apply list_find_Some in Hf as (He & _). apply lookup_lt_Some in He.
  split; [reflexivity|lia].
Qed.

Lemma Seek_found c seek iter e :
  Seek c seek = (iter, Some e) -> e ∈ entries c.
Proof.
  unfold Seek.
  destruct (list_find _ (entries c)) as [[p e']|] eqn:Hf; [|discriminate].
  intros H. inversion H; subst.
  apply list_find_Some in Hf as (He & _). apply list_elem_of_lookup. eauto.
Qed.

(** Every range lookup returns, with an id set, an error or a panic. *)
Lemma getIDsForRangeOfValues_returns i indexedValue limit keepEqual increasing :
  is_Some (getIDsForRangeOfValues i indexedValue limit keepEqual increasing).
Proof.
  unfold getIDsForRangeOfValues.
  destruct (getTx i) as [bk|e|p]; [|eauto|eauto].
  pose proof (Seek_pos (Cursor bk) indexedValue) as [Hent Hpos].
  destruct (Seek (Cursor bk) indexedValue) as [iter first].
  simpl in Hent, Hpos. cbv beta iota.
  destruct (newIDs (snd <$> first)); eauto.
  destruct increasing.
  - apply rangeLoop_Next_fuel. rewrite Hent. lia.
  - apply rangeLoop_Prev_fuel. lia.
Qed.

(** *** The cap on the number of ids *)

Lemma insertID_length id l :
  (length (insertID id l) <= S (length l))%nat.
Proof.
  induction l as [|x l IH]; simpl; [lia|].
  destruct (String.compare id x); simpl; lia.
Qed.

Lemma AddIDs_empty_length ids :
  (length (IDs (AddIDs (mkIDs []) ids)) <= length (IDs ids))%nat.
Proof.
  unfold AddIDs. simpl.
  assert (H : forall l acc,
    (length (foldl (fun acc id => insertID id acc) acc l)
       <= length acc + length l)%nat).
  { induction l as [|x l IH]; intros acc; simpl; [lia|].
    specialize (IH (insertID x acc)).
    pose proof (insertID_length x acc). lia. }
  apply (H (IDs ids) []).
Qed.

(** The loop never hands back more than the larger of what it started
    with and the cap. *)
Lemma rangeLoop_bound fuel nextFunc c limit keepEqual q allIDs r :
  0 <= q ->
  rangeLoop fuel nextFunc c limit keepEqual q allIDs = Some (Returned r) ->
  (length (IDs r) <= Nat.max (length (IDs allIDs)) (Z.to_nat q))%nat.
Proof.
  intros Hq. revert c allIDs.
  induction fuel as [|fuel IH]; intros c allIDs; cbn [rangeLoop];
    [discriminate|].
  destruct (nextFunc c) as [c' [[k v]|]].
  - destruct (newIDs (Some v)) as [ids| |]; try discriminate.
    destruct (crossed limit keepEqual k).
    + intros H. inversion H. lia.
    + destruct (Z.of_nat _ >? q) eqn:Hgt.
      * destruct (q <? 0); [discriminate|].
        intros H. inversion H. simpl. rewrite length_take. lia.
      * intros H. apply IH in H.
        assert (Z.of_nat (length (IDs (AddIDs allIDs ids))) <= q) by lia.
        lia.
  - intros H. inversion H. lia.
Qed.

(** A range lookup returns at most the cap, unless the ids stored under
    the start key alone exceed it. *)
Lemma getIDsForRangeOfValues_bound i bk indexedValue limit keepEqual increasing r :
  getTx i = Returned bk ->
  0 <= InternalQueryLimit (options i) ->
  getIDsForRangeOfValues i indexedValue limit keepEqual increasing
    = Some (Returned r) ->
  (length (IDs r) <= Z.to_nat (InternalQueryLimit (options i)))%nat \/
  (keepEqual = true /\
   exists l, (indexedValue, Ids l) ∈ bk /\
             (length (IDs r) <= length l)%nat).
Proof.
  intros Htx Hq. unfold getIDsForRangeOfValues. rewrite Htx.
  destruct (Seek (Cursor bk) indexedValue) as [iter first] eqn:HS.
  cbv beta iota.
  destruct (newIDs (snd <$> first)) as [firstIDsValue| |] eqn:Hn;
    try discriminate.
  destruct (bool_decide (fst <$> first = Some indexedValue) && keepEqual)
    eqn:Hc; intros H; apply rangeLoop_bound in H; try assumption.
  - apply andb_prop in Hc as [Hk ->].
    apply bool_decide_eq_true in Hk.
    destruct first as [[k v]|]; [|discriminate].
    simpl in Hk. inversion Hk; subst k.
    apply Seek_found in HS.
    destruct v as [l|]; [|discriminate]. simpl in Hn. inversion Hn; subst.
    pose proof (AddIDs_empty_length (mkIDs l)) as Hl.
    change (IDs (mkIDs l)) with l in Hl.
    destruct (Nat.max_spec (length (IDs (AddIDs (mkIDs []) (mkIDs l))))
                (Z.to_nat (InternalQueryLimit (options i)))) as [[_ Hm]|[_ Hm]].
    + left. lia.
    + right. split; [reflexivity|]. exists l. split; [assumption|lia].
  - simpl in H. left. lia.
Qed.

End RangeFacts.

(** *** An increasing lookup from an absent key *)

Section RangeFromAbsentKey.

Import IndexInternal.

Lemma list_find_first {A} (P : A -> Prop) `{forall x, Decision (P x)}
    (pre : list A) (x : A) (post : list A) :
  Forall (fun y => ~ P y) pre -> P x ->
  list_find P (pre ++ x :: post) = Some (length pre, x).
Proof.
  intros Hpre Hx. induction Hpre as [|y pre Hy Hpre IH]; simpl.
  - destruct (decide (P x)); [reflexivity|contradiction].
  - destruct (decide (P y)); [contradiction|].
    now rewrite IH.
Qed.

Lemma drop_past_middle {A} (pre : list A) (x : A) (post : list A) :
  drop (S (length pre)) (pre ++ x :: post) = post.
Proof. induction pre as [|y pre IH]; simpl; [now rewrite drop_0|exact IH]. Qed.

(** When every key before [k] is below [from] and [k] is above it, [Seek]
    lands on [k]. *)
Lemma Seek_next_key pre k v post from :
  Forall (fun e => bytes_compare (fst e) from = Lt) pre ->
  bytes_compare from k = Lt ->
  Seek (Cursor (pre ++ (k, v) :: post)) from
    = (mkCursor (pre ++ (k, v) :: post) (length pre), Some (k, v)).
Proof.
  intros Hpre Hk. unfold Seek, Cursor. simpl.
  rewrite (list_find_first _ pre (k, v) post).
  - reflexivity.
  - eapply Forall_impl; [exact Hpre|]. simpl. intros e He Hn. contradiction.
  - simpl. rewrite (bytes_compare_antisym from k), Hk. discriminate.
Qed.

(** The loop, going forward, reads the bucket after the cursor only. *)
Lemma rangeLoop_Next_ext fuel c1 c2 limit keepEqual q allIDs :
  drop (S (pos c1)) (entries c1) = drop (S (pos c2)) (entries c2) ->
  rangeLoop fuel Next c1 limit keepEqual q allIDs
    = rangeLoop fuel Next c2 limit keepEqual q allIDs.
Proof.
  revert c1 c2 allIDs.
  induction fuel as [|fuel IH]; intros c1 c2 allIDs Hd; [reflexivity|].
  cbn [rangeLoop]. rewrite !Next_drop, Hd.
  destruct (drop (S (pos c2)) (entries c2)) as [|[k v] rest] eqn:Hrest;
    [reflexivity|].
  destruct (newIDs (Some v)); try reflexivity.
  destruct (crossed limit keepEqual k); [reflexivity|].
  case_if; [reflexivity|].
  apply IH. simpl.
  replace (S (S (pos c1))) with (S (pos c1) + 1)%nat by lia.
  replace (S (S (pos c2))) with (S (pos c2) + 1)%nat by lia.
  rewrite <- (drop_drop (entries c1) 1 (S (pos c1))).
  rewrite <- (drop_drop (entries c2) 1 (S (pos c2))).
  now rewrite Hd, Hrest.
Qed.

(** The ids stored under the first key above an absent [from] have no
    part in an increasing lookup: the result is the same whatever they
    are. *)
Lemma getIDsForRangeOfValues_next_key_ignored
    i i' pre k l l' post from limit keepEqual :
  getTx i = Returned (pre ++ (k, Ids l) :: post) ->
  getTx i' = Returned (pre ++ (k, Ids l') :: post) ->
  options i' = options i ->
  Forall (fun e => bytes_compare (fst e) from = Lt) pre ->
  bytes_compare from k = Lt ->
  getIDsForRangeOfValues i from limit keepEqual true
    = getIDsForRangeOfValues i' from limit keepEqual true.
Proof.
  intros Htx Htx' Hopt Hpre Hk.
  assert (Hne : bool_decide (Some k = Some from) = false).
  { apply bool_decide_eq_false. intros H. inversion H; subst.
    rewrite bytes_compare_refl in Hk. discriminate. }
  unfold getIDsForRangeOfValues. rewrite Htx, Htx', Hopt.
  rewrite !Seek_next_key by assumption.
  cbv beta iota. simpl newIDs. cbv beta iota.
  simpl fmap. rewrite Hne. cbv beta iota. simpl andb. cbv beta iota.
  rewrite !length_app. simpl length.
  apply rangeLoop_Next_ext. simpl.
  now rewrite !drop_past_middle.
Qed.

End RangeFromAbsentKey.

(** *** Claims on range lookups *)

Section RangeClaims.

Import IndexInternal.

(** C2. [Seek] stops on the first key above an absent start key, the
    code takes its ids only when the key equals the start key, and the loop
    begins with [Next]: the ids under that key are left out, with or
    without [keepEqual], without an end key (Greater) and with one
    (Between). *)
Theorem getIDsForRangeOfValues_skips_next_key :
  let bk := [(key "b", Ids ["1"]); (key "d", Ids ["2"])] in
  let i := mkIndexType "Email" 0 (mkOptions 1000) (Returned bk) in
  bucket_wf bk = true /\
  next_above bk (key "a") = Some (key "b", Ids ["1"]) /\
  forall keepEqual,
    getIDsForRangeOfValues i (key "a") None keepEqual true
      = Some (Returned (mkIDs ["2"])) /\
    getIDsForRangeOfValues i (key "a") (Some (key "z")) keepEqual true
      = Some (Returned (mkIDs ["2"])).
Proof.
  split; [reflexivity|]. split; [reflexivity|].
  intros keepEqual. split; reflexivity.
Qed.

(** C3. The ids of the start key are added before the loop and outside
    its size check: with a cap of 2 and three ids under the start key, the
    lookup returns all three. *)
Theorem getIDsForRangeOfValues_exceeds_limit :
  let bk := [(key "b", Ids ["1"; "2"; "3"])] in
  let i := mkIndexType "Age" 0 (mkOptions 2) (Returned bk) in
  bucket_wf bk = true /\
  getIDsForRangeOfValues i (key "b") None true true
    = Some (Returned (mkIDs ["1"; "2"; "3"])).
Proof. split; reflexivity. Qed.

End RangeClaims.

(** ** Index references *)

Section ReferenceClaims.

Import Meta.

(** C10. The reference built from a supported scalar gives the scalar back
    unless it is the zero of its type; from a zero it gives nil. *)
Theorem GetValue_newIndexReference (indexName : string) (v : GoValue) :
  supported v = true ->
  (is_zero_value v = false ->
     GetValue (newIndexReference indexName v) = Some v) /\
  (is_zero_value v = true ->
     GetValue (newIndexReference indexName v) = None).
Proof.
  intros Hs.
  destruct v; try discriminate; split; intros Hz;
    unfold GetValue; simpl in *; rewrite ?Hz; reflexivity.
Qed.

Lemma GetValue_newIndexReference_witness :
  GetValue (newIndexReference "Age" (GoUint8 19)) = Some (GoUint8 19) /\
  GetValue (newIndexReference "Age" (GoUint8 0)) = None.
Proof.
  split.
  - apply (GetValue_newIndexReference "Age" (GoUint8 19)); reflexivity.
  - apply (GetValue_newIndexReference "Age" (GoUint8 0)); reflexivity.
Defined.

(** A value of a type without a field leaves the reference empty. *)
Lemma GetValue_unsupported indexName v :
  supported v = false -> GetValue (newIndexReference indexName v) = None.
Proof. destruct v; try discriminate; reflexivity. Qed.

End ReferenceClaims.

(** ** The versioned record store *)

Section StoreFacts.

Import Store.

Variable RevisionDepth : nat.
Variable reencode : string -> string.

Lemma Get_Put c id p :
  (1 <= RevisionDepth)%nat ->
  Get (Put RevisionDepth c id p) id 0 = Returned p.
Proof.
  intros HK. unfold Get, Put. simpl. rewrite lookup_insert_eq.
  destruct RevisionDepth; [lia|reflexivity].
Qed.

(** A rollback succeeds exactly when the offset is below the number of
    previous revisions. *)
Lemma Rollback_returns c id N revs :
  records c !! id = Some revs ->
  (exists ts, fst (Rollback RevisionDepth reencode c id N) = Returned ts)
  <-> (N < previous c id)%nat.
Proof.
  intros Hr. unfold Rollback, previous. rewrite Hr.
  destruct (revs !! S N) as [r|] eqn:HN; simpl.
  - apply lookup_lt_Some in HN. split; [lia|eauto].
  - apply lookup_ge_None in HN. split; [intros [ts H]; discriminate|lia].
Qed.

(** What [TestRollback] observes, on data sets of 300 users and the
    default depth: the three results of [Rollback] and the four of [Get]. *)
Lemma TestRollback_trace :
  let c0 := afterThreeDataSets in
  let (r1, c1) := Rollback 10 (fun p => p) c0 "1" 0 in
  let (r2, c2) := Rollback 10 (fun p => p) c1 "1" 2 in
  let (r3, c3) := Rollback 10 (fun p => p) c2 "1" 4 in
  Get c0 "1" 0 = Returned "C1" /\
  r1 = Returned 302 /\ Get c1 "1" 0 = Returned "B1" /\
  r2 = Returned 2 /\ Get c2 "1" 0 = Returned "A1" /\
  r3 = Failed ErrRevisionOutOfRange /\ Get c3 "1" 0 = Returned "A1".
Proof. vm_compute. repeat split. Qed.

(** With the offsets as the spec words them the first rollback of the
    test would return the timestamp of the live revision, 602, where the
    test expects 302. *)
Lemma TestRollback_as_worded :
  fst (Rollback_as_worded 10 (fun p => p) afterThreeDataSets "1" 0)
    = Returned 602.
Proof. vm_compute. reflexivity. Qed.

End StoreFacts.

Section StoreClaims.

Import Store.

(** C1, as the store has it: offset 0 is the most recent previous
    revision. With one at hand, [Rollback(id, 0)] returns its timestamp and
    the next [Get] returns its payload, as re-put. *)
Theorem Rollback_zero_restores_previous
    (RevisionDepth : nat) (reencode : string -> string)
    (c : Collection) (id : string) (live prev : revision)
    (older : list revision) :
  (1 <= RevisionDepth)%nat ->
  records c !! id = Some (live :: prev :: older) ->
  fst (Rollback RevisionDepth reencode c id 0) = Returned (timestamp prev) /\
  Get (snd (Rollback RevisionDepth reencode c id 0)) id 0
    = Returned (reencode (payload prev)).
Proof.
  intros HK Hr. unfold Rollback. rewrite Hr. simpl.
  split; [reflexivity|]. now apply Get_Put.
Qed.

Lemma Rollback_zero_restores_previous_witness :
  let c := Put 10 (Put 10 emptyCollection "1" "A") "1" "B" in
  fst (Rollback 10 (fun p => p) c "1" 0) = Returned 1 /\
  Get (snd (Rollback 10 (fun p => p) c "1" 0)) "1" 0 = Returned "A".
Proof.
  apply (Rollback_zero_restores_previous 10 (fun p => p)
           (Put 10 (Put 10 emptyCollection "1" "A") "1" "B") "1"
           (mkRevision 2 "B") (mkRevision 1 "A") []).
  - lia.
  - reflexivity.
Defined.

(** C1, as stated, fails: after the puts of A then B, [Get] returns B;
    after [Rollback(id, 0)] it returns A. *)
Lemma Rollback_zero_changes_live :
  let c := Put 10 (Put 10 emptyCollection "1" "A") "1" "B" in
  Get c "1" 0 = Returned "B" /\
  Get (snd (Rollback 10 (fun p => p) c "1" 0)) "1" 0 = Returned "A".
Proof. vm_compute. split; reflexivity. Qed.

(** C6. An offset above the number of previous revisions makes [Rollback]
    fail with RevisionOutOfRange and hand back the collection as it was, so
    [Get] returns what it returned before. *)
Theorem Rollback_out_of_range
    (RevisionDepth : nat) (reencode : string -> string)
    (c : Collection) (id : string) (N : nat) :
  is_Some (records c !! id) ->
  (previous c id < N)%nat ->
  Rollback RevisionDepth reencode c id N = (Failed ErrRevisionOutOfRange, c) /\
  Get (snd (Rollback RevisionDepth reencode c id N)) id 0 = Get c id 0.
Proof.
  intros [revs Hr] HN. unfold previous in HN. rewrite Hr in HN.
  assert (H : Rollback RevisionDepth reencode c id N
              = (Failed ErrRevisionOutOfRange, c)).
  { unfold Rollback. rewrite Hr.
    rewrite (lookup_ge_None_2 revs (S N)) by lia. reflexivity. }
  rewrite H. split; reflexivity.
Qed.

Lemma Rollback_out_of_range_witness :
  let c := Put 10 (Put 10 emptyCollection "1" "A") "1" "B" in
  Rollback 10 (fun p => p) c "1" 2 = (Failed ErrRevisionOutOfRange, c) /\
  Get (snd (Rollback 10 (fun p => p) c "1" 2)) "1" 0 = Get c "1" 0.
Proof.
  apply (Rollback_out_of_range 10 (fun p => p)
           (Put 10 (Put 10 emptyCollection "1" "A") "1" "B") "1" 2).
  - eexists. reflexivity.
  - vm_compute. lia.
Defined.

End StoreClaims.


(** * Further properties *)

(** ** The filter builder *)

Section FilterBuilder.

Import Filters.

Variable buildSelectorHash : list string -> Z.

Lemma CompareTo_equal f val : equal (CompareTo f val) = equal f.
Proof.
  unfold CompareTo. destruct (newfilterValue val); try reflexivity.
  destruct (values f); [|reflexivity].
  destruct (decide _); reflexivity.
Qed.

(** [CompareTo] touches nothing but the values of the filter: the
    operator, the selector, its hash and the [equal] flag stay as they
    were, whether the value is accepted or not. *)
Lemma CompareTo_only_values (f : Filter) (val : GoValue) :
  operator (CompareTo f val) = operator f /\
  selector (CompareTo f val) = selector f /\
  selectorHash (CompareTo f val) = selectorHash f /\
  equal (CompareTo f val) = equal f.
Proof.
  unfold CompareTo. destruct (newfilterValue val); auto.
  destruct (values f); auto.
  destruct (decide (operator f <> Between)); auto.
Qed.

(** X1. In a run of [CompareTo] calls the rejected values count for
    nothing: the filter is the one the accepted values alone give. *)
Lemma CompareToAll_rejected_ignored (f : Filter) (vals : list GoValue) :
  CompareToAll f vals = CompareToAll f (List.filter indexable vals).
Proof.
  unfold CompareToAll. revert f.
  induction vals as [|val vals IH]; intros f; simpl; [reflexivity|].
  destruct (indexable val) eqn:Hval; simpl.
  - apply IH.
  - rewrite IH. f_equal. unfold CompareTo.
    now rewrite (not_indexable_fails _ Hval).
Qed.

(** X2. On a filter that is not a Between filter the last accepted value
    wins: whatever was compared to before, the filter carries that value
    alone. *)
Lemma CompareToAll_last_wins (f : Filter) (vals : list GoValue)
    (val : GoValue) (fv : filterValue) :
  operator f <> Between ->
  newfilterValue val = Returned fv ->
  values (CompareToAll f (vals ++ [val])) = Some [fv].
Proof.
  intros Hop Hv. unfold CompareToAll. rewrite foldl_app. simpl.
  apply CompareTo_not_between; [|assumption].
  fold (CompareToAll f vals).
  clear Hv. revert f Hop. unfold CompareToAll.
  induction vals as [|v vals IH]; intros f Hop; simpl; [assumption|].
  apply IH. now rewrite CompareTo_operator.
Qed.

Lemma CompareToAll_last_wins_witness :
  values (CompareToAll (NewFilter Greater) ([GoInt 1; GoBool true] ++ [GoString "f"]))
    = Some [mkFilterValue StringIndex (GoString "f")].
Proof.
  apply (CompareToAll_last_wins (NewFilter Greater) [GoInt 1; GoBool true]
           (GoString "f")).
  - discriminate.
  - reflexivity.
Defined.

(** Once a Between filter has a first value, every further call keeps it
    in front. *)
Lemma CompareTo_between_keeps_first f val fa rest :
  operator f = Between -> values f = Some (fa :: rest) ->
  exists rest', values (CompareTo f val) = Some (fa :: rest').
Proof.
  intros Hop Hvs. unfold CompareTo.
  destruct (newfilterValue val) as [fv| |]; eauto.
  rewrite Hvs.
  destruct (decide (operator f <> Between)) as [n|_]; [congruence|].
  destruct rest as [|fb rest]; simpl; eauto.
Qed.

Lemma CompareToAll_between_keeps_first vals f fa rest :
  operator f = Between -> values f = Some (fa :: rest) ->
  operator (CompareToAll f vals) = Between /\
  exists rest', values (CompareToAll f vals) = Some (fa :: rest').
Proof.
  unfold CompareToAll. revert f rest.
  induction vals as [|v vals IH]; intros f rest Hop Hvs; simpl; [eauto|].
  destruct (CompareTo_between_keeps_first f v fa rest Hop Hvs) as [rest' H'].
  apply (IH _ rest'); [now rewrite CompareTo_operator|assumption].
Qed.

(** The first and the last accepted value of a Between filter. *)
Lemma CompareToAll_between_first_last (f : Filter) (a z : GoValue)
    (mid : list GoValue) (fa fz : filterValue) :
  operator f = Between -> values f = None ->
  newfilterValue a = Returned fa -> newfilterValue z = Returned fz ->
  exists rest,
    values (CompareToAll f (a :: mid ++ [z])) = Some (fa :: fz :: rest).
Proof.
  intros Hop Hnil Ha Hz.
  unfold CompareToAll. simpl. rewrite foldl_app. simpl.
  assert (H1 : values (CompareTo f a) = Some [fa])
    by (unfold CompareTo; now rewrite Ha, Hnil).
  assert (Hop1 : operator (CompareTo f a) = Between)
    by now rewrite CompareTo_operator.
  destruct (CompareToAll_between_keeps_first mid _ fa [] Hop1 H1)
    as [Hop2 [rest Hrest]].
  unfold CompareToAll in Hop2, Hrest.
  unfold CompareTo at 1. rewrite Hz, Hrest.
  destruct (decide (_ <> Between)) as [n|_]; [congruence|].
  destruct rest as [|fb rest]; simpl; eauto.
Qed.

(** X3. The bounds a Between filter ends up with: after a first accepted
    value, any calls in between and a last accepted value, [values[0]] is
    the first value and [values[1]] the last one. *)
Theorem CompareToAll_between_bounds (f : Filter) (a z : GoValue)
    (mid : list GoValue) (fa fz : filterValue) :
  operator f = Between -> values f = None ->
  newfilterValue a = Returned fa -> newfilterValue z = Returned fz ->
  exists rest,
    values (CompareToAll f (a :: mid ++ [z])) = Some (fa :: fz :: rest).
Proof. apply CompareToAll_between_first_last. Qed.

Lemma CompareToAll_between_bounds_witness :
  exists rest,
    values (CompareToAll (NewFilter Between)
              (GoString "m" :: [GoString "p"] ++ [GoString "u"]))
      = Some (mkFilterValue StringIndex (GoString "m")
              :: mkFilterValue StringIndex (GoString "u") :: rest).
Proof.
  apply (CompareToAll_between_bounds (NewFilter Between)
           (GoString "m") (GoString "u") [GoString "p"]); reflexivity.
Defined.

(** The builder calls can come in any order: [EqualWanted] and
    [SetSelector] commute with [CompareTo] and with each other. *)
Lemma builder_calls_commute (f : Filter) (val : GoValue) (s : list string) :
  CompareTo (EqualWanted f) val = EqualWanted (CompareTo f val) /\
  CompareTo (SetSelector buildSelectorHash f s) val
    = SetSelector buildSelectorHash (CompareTo f val) s /\
  EqualWanted (SetSelector buildSelectorHash f s)
    = SetSelector buildSelectorHash (EqualWanted f) s.
Proof.
  unfold CompareTo. repeat split.
  - destruct (newfilterValue val); try reflexivity. simpl.
    destruct (values f); [|reflexivity].
    destruct (decide (operator f <> Between)); reflexivity.
  - destruct (newfilterValue val); try reflexivity. simpl.
    destruct (values f); [|reflexivity].
    destruct (decide (operator f <> Between)); reflexivity.
Qed.

End FilterBuilder.

(** ** The references of an object *)

Section ReferenceFacts.

Import IndexInternal References.

Lemma setFirst_None name val refs :
  setFirst name val refs = None <-> name ∉ (IndexName <$> refs).
Proof.
  induction refs as [|ref refs IH]; simpl.
  - split; [intros _ H; inversion H|reflexivity].
  - destruct (decide (IndexName ref = name)) as [Heq|Hne].
    + split; [discriminate|]. intros H. destruct H. subst. left.
    + rewrite fmap_None, IH. rewrite not_elem_of_cons.
      split; [intros H; split; [congruence|assumption]|intros [_ H]; exact H].
Qed.

Lemma setFirst_names name val refs refs' :
  setFirst name val refs = Some refs' ->
  IndexName <$> refs' = IndexName <$> refs.
Proof.
  revert refs'. induction refs as [|ref refs IH]; intros refs'; simpl;
    [discriminate|].
  destruct (decide (IndexName ref = name)).
  - intros H. inversion H. reflexivity.
  - destruct (setFirst name val refs) as [l|]; [|discriminate].
    intros H. inversion H. simpl. f_equal. now apply IH.
Qed.

Lemma setFirst_find name val refs refs' name' :
  setFirst name val refs = Some refs' ->
  (fun e => IndexedValue (snd e))
    <$> list_find (fun ref => IndexName ref = name') refs'
  = if decide (name' = name) then Some val
    else (fun e => IndexedValue (snd e))
           <$> list_find (fun ref => IndexName ref = name') refs.
Proof.
  revert refs'. induction refs as [|ref refs IH]; intros refs'; simpl;
    [discriminate|].
  destruct (decide (IndexName ref = name)) as [Heq|Hne].
  - intros H. inversion H; subst. simpl.
    destruct (decide (name' = IndexName ref)) as [->|Hn].
    + now rewrite decide_True.
    + rewrite !decide_False by congruence. reflexivity.
  - destruct (setFirst name val refs) as [l|] eqn:Hl; [|discriminate].
    intros H. inversion H; subst. simpl.
    destruct (decide (IndexName ref = name')) as [Heq'|Hne'].
    + destruct (decide (name' = name)); [congruence|reflexivity].
    + specialize (IH l eq_refl).
      destruct (list_find (fun ref => IndexName ref = name') l) as [[? ?]|];
        destruct (list_find (fun ref => IndexName ref = name') refs)
          as [[? ?]|]; simpl in *; exact IH.
Qed.

(** X4. After [SetIndexedValue] the value recorded for the index is the
    one given, and the value recorded for every other index is what it
    was. *)
Lemma SetIndexedValue_indexedValueOf (r : Refs) (indexName : string)
    (indexedVal : bytes) (other : string) :
  indexedValueOf (SetIndexedValue r indexName indexedVal) other
  = if decide (other = indexName) then Some indexedVal
    else indexedValueOf r other.
Proof.
  unfold indexedValueOf, SetIndexedValue.
  destruct (setFirst indexName indexedVal (RefsList r)) as [refs|] eqn:Hs;
    simpl.
  - now apply setFirst_find.
  - apply setFirst_None in Hs.
    destruct (list_find (fun ref => IndexName ref = other) (RefsList r))
      as [[n ref]|] eqn:Hf.
    + pose proof Hf as Hf'. apply list_find_Some in Hf' as (Hl & Hn & _).
      rewrite (list_find_app_l _ _ _ _ _ Hf). simpl.
      destruct (decide (other = indexName)) as [->|]; [|reflexivity].
      destruct Hs. rewrite <- Hn. apply list_elem_of_fmap_2.
      apply list_elem_of_lookup. eauto.
    + rewrite list_find_app_r by assumption. simpl.
      destruct (decide (indexName = other)) as [->|Hne]; simpl.
      * now rewrite decide_True.
      * now rewrite decide_False by congruence.
Qed.

(** The index names after [SetIndexedValue]. *)
Lemma SetIndexedValue_names (r : Refs) (indexName : string)
    (indexedVal : bytes) :
  indexNames (SetIndexedValue r indexName indexedVal)
  = if decide (indexName ∈ indexNames r) then indexNames r
    else indexNames r ++ [indexName].
Proof.
  unfold indexNames, SetIndexedValue.
  destruct (setFirst indexName indexedVal (RefsList r)) as [refs|] eqn:Hs;
    simpl.
  - rewrite (setFirst_names _ _ _ _ Hs).
    rewrite decide_True; [reflexivity|].
    destruct (decide (indexName ∈ IndexName <$> RefsList r)) as [|Hn];
      [assumption|].
    apply setFirst_None with (val := indexedVal) in Hn. congruence.
  - apply setFirst_None in Hs. rewrite decide_False by assumption.
    now rewrite fmap_app.
Qed.

(** X5. [SetIndexedValue] never adds a second reference for an index:
    the index names are kept as they are when the index has a reference,
    and get the new name at the end when it has none. *)
Theorem SetIndexedValue_indexNames (r : Refs) (indexName : string)
    (indexedVal : bytes) :
  indexNames (SetIndexedValue r indexName indexedVal)
  = if decide (indexName ∈ indexNames r) then indexNames r
    else indexNames r ++ [indexName].
Proof. apply SetIndexedValue_names. Qed.

(** X6. The references built from [NewRefs] by any run of
    [SetIndexedValue] hold each index name once. *)
Lemma SetIndexedValue_NoDup (sets : list (string * bytes)) :
  NoDup (indexNames
           (foldl (fun r e => SetIndexedValue r (fst e) (snd e)) NewRefs sets)).
Proof.
  assert (H : forall r, NoDup (indexNames r) ->
    NoDup (indexNames
             (foldl (fun r e => SetIndexedValue r (fst e) (snd e)) r sets))).
  { induction sets as [|[n v] sets IH]; intros r Hr; simpl; [assumption|].
    apply IH. rewrite SetIndexedValue_names.
    destruct (decide (n ∈ indexNames r)); [assumption|].
    apply NoDup_app. repeat split; [assumption| |apply NoDup_singleton].
    intros x Hx Hx'. apply list_elem_of_singleton in Hx'. now subst. }
  apply H. constructor.
Qed.

(** X7. Setting the same index twice is setting it once with the last
    value. *)
Lemma SetIndexedValue_twice (r : Refs) (indexName : string)
    (v w : bytes) :
  SetIndexedValue (SetIndexedValue r indexName v) indexName w
  = SetIndexedValue r indexName w.
Proof.
  assert (Hfirst : forall refs refs',
    setFirst indexName v refs = Some refs' ->
    setFirst indexName w refs' = setFirst indexName w refs).
  { induction refs as [|ref refs IH]; intros refs'; simpl; [discriminate|].
    destruct (decide (IndexName ref = indexName)) as [Heq|Hne].
    - intros H. inversion H; subst. simpl. now rewrite decide_True.
    - destruct (setFirst indexName v refs) as [l|]; [|discriminate].
      intros H. inversion H; subst. simpl.
      rewrite decide_False by assumption. now rewrite (IH l). }
  assert (Hlast : forall refs,
    setFirst indexName v refs = None ->
    setFirst indexName w (refs ++ [mkRef indexName v])
      = Some (refs ++ [mkRef indexName w])).
  { induction refs as [|ref refs IH]; simpl.
    - intros _. now rewrite decide_True.
    - destruct (decide (IndexName ref = indexName)); [discriminate|].
      destruct (setFirst indexName v refs); [discriminate|].
      intros _. now rewrite IH. }
  unfold SetIndexedValue at 2.
  destruct (setFirst indexName v (RefsList r)) as [refs|] eqn:Hs.
  - unfold SetIndexedValue. simpl. rewrite (Hfirst _ _ Hs).
    destruct (setFirst indexName w (RefsList r)) as [refs2|] eqn:Hw;
      [reflexivity|].
    apply setFirst_None in Hw.
    assert (Hn : setFirst indexName v (RefsList r) = None)
      by now apply setFirst_None.
    congruence.
  - unfold SetIndexedValue. simpl. rewrite (Hlast _ Hs).
    assert (Hn : setFirst indexName w (RefsList r) = None).
    { apply setFirst_None. now apply setFirst_None in Hs. }
    now rewrite Hn.
Qed.

End ReferenceFacts.

(** ** Range lookups seen as a scan of the bucket *)

Section ScanFacts.

Import IndexInternal RangeScan.

Lemma bytes_compare_eq a b : bytes_compare a b = Eq <-> a = b.
Proof.
  split; [|intros ->; apply bytes_compare_refl].
  revert b. induction a as [|x a IH]; intros [|y b]; simpl; try discriminate;
    [reflexivity|].
  destruct (Byte.to_N x ?= Byte.to_N y)%N eqn:Hxy; try discriminate.
  intros H. apply N.compare_eq in Hxy.
  assert (x = y).
  { pose proof (Byte.of_to_N x) as Hx. rewrite Hxy, Byte.of_to_N in Hx.
    now inversion Hx. }
  subst. f_equal. now apply IH.
Qed.

Lemma bytes_compare_trans a b c :
  bytes_compare a b = Lt -> bytes_compare b c = Lt -> bytes_compare a c = Lt.
Proof.
  revert b c. induction a as [|x a IH]; intros [|y b] [|z c]; simpl;
    try discriminate; try reflexivity.
  destruct (Byte.to_N x ?= Byte.to_N y)%N eqn:Hxy;
    destruct (Byte.to_N y ?= Byte.to_N z)%N eqn:Hyz; try discriminate.
  - apply N.compare_eq in Hxy, Hyz. rewrite Hxy, Hyz, N.compare_refl.
    apply IH.
  - apply N.compare_eq in Hxy. rewrite Hxy, Hyz. reflexivity.
  - apply N.compare_eq in Hyz. rewrite <- Hyz, Hxy. reflexivity.
  - rewrite N.compare_lt_iff in Hxy, Hyz.
    assert (H : (Byte.to_N x ?= Byte.to_N z)%N = Lt)
      by (apply N.compare_lt_iff; lia).
    now rewrite H.
Qed.

(** Past a key the end key stops at, every larger key is stopped too. *)
Lemma crossed_upward limit keepEqual k k' :
  crossed limit keepEqual k = true -> bytes_compare k k' = Lt ->
  crossed limit keepEqual k' = true.
Proof.
  unfold crossed. destruct limit as [l|]; [|discriminate].
  destruct (bytes_compare l k) eqn:Hl; try discriminate; intros _ Hk.
  - apply bytes_compare_eq in Hl. subst. now rewrite Hk.
  - now rewrite (bytes_compare_trans _ _ _ Hl Hk).
Qed.

(** *** Sorted buckets *)

Lemma keys_increasing_tail e b :
  keys_increasing (e :: b) = true -> keys_increasing b = true.
Proof.
  destruct e as [k v]. simpl. intros H. now apply andb_prop in H as [_ H].
Qed.

Lemma keys_increasing_head k v b k' v' :
  keys_increasing ((k, v) :: b) = true -> (k', v') ∈ b ->
  bytes_compare k k' = Lt.
Proof.
  revert k v. induction b as [|[k1 v1] b IH]; intros k v Hs Hin;
    [inversion Hin|].
  simpl in Hs. apply andb_prop in Hs as [Hk Hs].
  apply bool_decide_eq_true in Hk.
  apply elem_of_cons in Hin as [Heq|Hin].
  - now inversion Heq; subst.
  - eapply bytes_compare_trans; [exact Hk|].
    apply (IH k1 v1); [exact Hs|assumption].
Qed.

Lemma keys_increasing_drop n b :
  keys_increasing b = true -> keys_increasing (drop n b) = true.
Proof.
  revert b. induction n as [|n IH]; intros b Hb; [now rewrite drop_0|].
  destruct b as [|e b]; [reflexivity|]. simpl.
  apply IH. now apply keys_increasing_tail in Hb.
Qed.

Lemma keys_increasing_lookup b i j k v k' v' :
  keys_increasing b = true -> (i < j)%nat ->
  b !! i = Some (k, v) -> b !! j = Some (k', v') ->
  bytes_compare k k' = Lt.
Proof.
  intros Hb Hij Hi Hj.
  pose proof (keys_increasing_drop i b Hb) as Hd.
  rewrite (drop_S _ _ _ Hi) in Hd.
  apply (keys_increasing_head k v (drop (S i) b) k' v' Hd).
  apply list_elem_of_lookup. exists (j - S i)%nat.
  rewrite lookup_drop. rewrite <- Hj. f_equal. lia.
Qed.

(** *** The ids an id set holds after [AddIDs] *)

Lemma insertID_elem id l x : x ∈ insertID id l <-> x = id \/ x ∈ l.
Proof.
  induction l as [|y l IH]; simpl.
  - rewrite list_elem_of_singleton. split; [auto|].
    intros [H|H]; [assumption|inversion H].
  - destruct (String.compare id y) eqn:Hc.
    + apply String.compare_eq_iff in Hc. subst y. split; [auto|].
      intros [->|H]; [left|assumption].
    + rewrite elem_of_cons. tauto.
    + rewrite !elem_of_cons, IH. tauto.
Qed.

Lemma AddIDs_elem a b x :
  x ∈ IDs (AddIDs a b) <-> x ∈ IDs a \/ x ∈ IDs b.
Proof.
  unfold AddIDs. simpl. generalize (IDs a) as acc.
  induction (IDs b) as [|id l IH]; intros acc; simpl.
  - split; [auto|]. intros [H|H]; [assumption|inversion H].
  - rewrite IH, insertID_elem, elem_of_cons. tauto.
Qed.

Lemma AddIDs_length a b :
  (length (IDs (AddIDs a b)) <= length (IDs a) + length (IDs b))%nat.
Proof.
  unfold AddIDs. simpl. generalize (IDs a) as acc.
  induction (IDs b) as [|id l IH]; intros acc; simpl; [lia|].
  specialize (IH (insertID id acc)).
  pose proof (insertID_length id acc). lia.
Qed.

(** *** The loop over the cursor is the scan of the upcoming entries *)

Lemma rangeLoop_Next_collect fuel c limit keepEqual q allIDs :
  (length (entries c) - pos c < fuel)%nat ->
  rangeLoop fuel Next c limit keepEqual q allIDs
    = Some (collect (upcoming true (entries c) (pos c)) limit keepEqual q allIDs).
Proof.
  unfold upcoming. revert c allIDs.
  induction fuel as [|fuel IH]; intros c allIDs Hfuel; [lia|].
  cbn [rangeLoop]. rewrite Next_drop.
  destruct (drop (S (pos c)) (entries c)) as [|[k v] rest] eqn:Hrest;
    [reflexivity|].
  cbn [collect].
  destruct (newIDs (Some v)); try reflexivity.
  destruct (crossed limit keepEqual k); [reflexivity|].
  case_if; [case_if; reflexivity|].
  assert (Hlen : (S (pos c) < length (entries c))%nat).
  { destruct (decide (S (pos c) < length (entries c))%nat); [assumption|].
    rewrite drop_ge in Hrest by lia. discriminate. }
  rewrite IH by (simpl; lia). simpl.
  replace (S (S (pos c))) with (S (pos c) + 1)%nat by lia.
  rewrite <- (drop_drop (entries c) 1 (S (pos c))), Hrest. reflexivity.
Qed.

Lemma rangeLoop_Prev_collect fuel c limit keepEqual q allIDs :
  (pos c <= length (entries c))%nat -> (pos c < fuel)%nat ->
  rangeLoop fuel Prev c limit keepEqual q allIDs
    = Some (collect (upcoming false (entries c) (pos c)) limit keepEqual q allIDs).
Proof.
  unfold upcoming. revert c allIDs.
  induction fuel as [|fuel IH]; intros c allIDs Hpos Hfuel; [lia|].
  cbn [rangeLoop]. unfold Prev.
  destruct (pos c) as [|p] eqn:Hp; [reflexivity|].
  destruct (lookup_lt_is_Some_2 (entries c) p) as [[k v] He]; [lia|].
  rewrite He, (take_S_r _ _ _ He), reverse_snoc.
  cbn [collect].
  destruct (newIDs (Some v)); try reflexivity.
  destruct (crossed limit keepEqual k); [reflexivity|].
  case_if; [case_if; reflexivity|].
  rewrite IH by (simpl; lia). reflexivity.
Qed.

(** *** Where [Seek] leaves the cursor *)

(** The position [Seek] reaches: the keys before it are below the key
    sought, the key at it, if any, is not. *)
Lemma Seek_position b from iter first :
  Seek (Cursor b) from = (iter, first) ->
  entries iter = b /\ (pos iter <= length b)%nat /\ first = b !! pos iter /\
  (forall j k v, (j < pos iter)%nat -> b !! j = Some (k, v) ->
     bytes_compare k from = Lt) /\
  (forall k v, first = Some (k, v) -> bytes_compare k from <> Lt).
Proof.
  unfold Seek, Cursor. simpl.
  destruct (list_find _ b) as [[p e]|] eqn:Hf; intros H; inversion H; subst;
    simpl.
  - apply list_find_Some in Hf as (He & HP & Hbefore).
    split; [reflexivity|]. split; [apply lookup_lt_Some in He; lia|].
    split; [now rewrite He|]. split.
    + intros j k v Hj Hjk. specialize (Hbefore j (k, v) Hjk Hj).
      simpl in Hbefore.
      destruct (bytes_compare k from); try reflexivity;
        exfalso; apply Hbefore; discriminate.
    + intros k v Hkv. inversion Hkv; subst. exact HP.
  - apply list_find_None in Hf. rewrite Forall_forall in Hf.
    split; [reflexivity|]. split; [lia|].
    split; [symmetry; now apply lookup_ge_None|]. split.
    + intros j k v _ Hjk.
      assert (Hin : (k, v) ∈ b) by (apply list_elem_of_lookup; eauto).
      specialize (Hf _ Hin). simpl in Hf.
      destruct (bytes_compare k from); try reflexivity;
        exfalso; apply Hf; discriminate.
    + discriminate.
Qed.

(** A range lookup over a readable bucket is: seek, take the ids of the
    start key when it is there and wanted, then scan the upcoming
    entries. *)
Lemma getIDsForRangeOfValues_scan i b indexedValue limit keepEqual increasing :
  getTx i = Returned b ->
  getIDsForRangeOfValues i indexedValue limit keepEqual increasing
  = Some
      (let p := pos (fst (Seek (Cursor b) indexedValue)) in
       match newIDs (snd <$> b !! p) with
       | Returned firstIDsValue =>
           collect (upcoming increasing b p) limit keepEqual
             (InternalQueryLimit (options i))
             (if bool_decide (fst <$> b !! p = Some indexedValue) && keepEqual
              then AddIDs (mkIDs []) firstIDsValue else mkIDs [])
       | Failed e => Failed e
       | Panicked q => Panicked q
       end).
Proof.
  intros Htx. unfold getIDsForRangeOfValues. rewrite Htx.
  destruct (Seek (Cursor b) indexedValue) as [iter first] eqn:HS.
  apply Seek_position in HS as (Hent & Hpos & Hfirst & _ & _).
  cbv beta iota zeta. simpl fst. rewrite <- Hfirst.
  destruct (newIDs (snd <$> first)); try reflexivity.
  destruct increasing.
  - rewrite rangeLoop_Next_collect by (rewrite Hent; lia).
    now rewrite Hent.
  - rewrite rangeLoop_Prev_collect by (rewrite ?Hent; lia).
    now rewrite Hent.
Qed.

End ScanFacts.

(** ** What a range lookup returns *)

Section ScanResults.

Import IndexInternal RangeScan.

(** Every id the scan hands back was there at the start or is stored
    under an upcoming key that the end key lets through. *)
Lemma collect_sound rest limit keepEqual q allIDs r id :
  collect rest limit keepEqual q allIDs = Returned r ->
  id ∈ IDs r ->
  id ∈ IDs allIDs \/
  exists k l, (k, Ids l) ∈ rest /\ id ∈ l /\ crossed limit keepEqual k = false.
Proof.
  revert allIDs. induction rest as [|[k v] rest IH]; intros allIDs; simpl.
  - intros H Hid. inversion H; subst. now left.
  - destruct v as [l|]; simpl; [|discriminate].
    destruct (crossed limit keepEqual k) eqn:Hc.
    + intros H Hid. inversion H; subst. now left.
    + assert (Hadd : forall x, x ∈ IDs (AddIDs allIDs (mkIDs l)) ->
                x ∈ IDs allIDs \/
                exists k0 l0, (k0, Ids l0) ∈ (k, Ids l) :: rest /\ x ∈ l0 /\
                              crossed limit keepEqual k0 = false).
      { intros x Hx. apply AddIDs_elem in Hx as [Hx|Hx]; [now left|].
        right. exists k, l. split; [left|]. split; assumption. }
      case_if.
      * case_if; [discriminate|]. intros H Hid. inversion H; subst.
        simpl in Hid. apply subseteq_take in Hid. now apply Hadd.
      * intros H Hid. destruct (IH _ H Hid) as [Hx|(k0 & l0 & Hin & Hx & Hk)].
        -- now apply Hadd.
        -- right. exists k0, l0. split; [now right|]. split; assumption.
Qed.

(** Where the ids of a range lookup come from. *)
Lemma range_lookup_sound (i : indexType) (b : bucket)
    (from : bytes) (limit : option bytes) (keepEqual increasing : bool)
    (r : idsType) (id : string) :
  getTx i = Returned b ->
  keys_increasing b = true ->
  getIDsForRangeOfValues i from limit keepEqual increasing
    = Some (Returned r) ->
  id ∈ IDs r ->
  exists k, stored_under b k id /\
            in_range from limit keepEqual increasing k.
Proof.
  intros Htx Hsorted Hres Hid.
  rewrite (getIDsForRangeOfValues_scan i b _ _ _ _ Htx) in Hres.
  destruct (Seek (Cursor b) from) as [iter first] eqn:HS.
  apply Seek_position in HS as (_ & Hpos & Hfirst & Hbefore & Hat).
  cbv zeta in Hres. simpl fst in Hres. rewrite <- Hfirst in Hres.
  set (p := pos iter) in *.
  destruct (newIDs (snd <$> first)) as [firstIDsValue| |] eqn:Hn;
    [|discriminate|discriminate].
  inversion Hres as [Hc]. clear Hres.
  destruct (collect_sound _ _ _ _ _ _ _ Hc Hid)
    as [Hinit|(k & l & Hin & Hidl & Hk)].
  - (* the ids of the start key *)
    destruct (bool_decide (fst <$> first = Some from) && keepEqual) eqn:Hb;
      [|inversion Hinit].
    apply andb_prop in Hb as [Hkey ->]. apply bool_decide_eq_true in Hkey.
    destruct first as [[kp vp]|]; [|discriminate].
    simpl in Hkey. inversion Hkey; subst kp.
    destruct vp as [l|]; [|discriminate]. simpl in Hn. inversion Hn; subst.
    apply AddIDs_elem in Hinit as [Hinit|Hinit]; [inversion Hinit|].
    exists from. split.
    + exists l. split; [|assumption]. apply list_elem_of_lookup. eauto.
    + left. auto.
  - (* the ids of an upcoming key *)
    exists k. unfold upcoming in Hin. destruct increasing.
    + apply list_elem_of_lookup in Hin as [j Hj]. rewrite lookup_drop in Hj.
      split; [exists l; split; [apply list_elem_of_lookup; eauto|assumption]|].
      right. split; [|assumption].
      destruct first as [[kp vp]|];
        [|symmetry in Hfirst; apply lookup_ge_None in Hfirst;
          apply lookup_lt_Some in Hj; lia].
      assert (Hlt : bytes_compare kp k = Lt).
      { apply (keys_increasing_lookup b p (S p + j) kp vp k (Ids l));
          auto; lia. }
      specialize (Hat kp vp eq_refl).
      destruct (bytes_compare kp from) eqn:Hkp; [| contradiction |].
      * apply bytes_compare_eq in Hkp. now subst.
      * rewrite (bytes_compare_antisym from kp) in Hkp.
        destruct (bytes_compare from kp) eqn:Hf; try discriminate.
        eapply bytes_compare_trans; eassumption.
    + apply elem_of_reverse, elem_of_take in Hin as (j & Hj & Hjp).
      split; [exists l; split; [apply list_elem_of_lookup; eauto|assumption]|].
      right. split; [|assumption].
      rewrite (bytes_compare_antisym k from).
      now rewrite (Hbefore j k (Ids l) Hjp Hj).
Qed.



End ScanResults.

Section ScanComplete.

Import IndexInternal RangeScan.

Lemma idCount_app a b : idCount (a ++ b) = (idCount a + idCount b)%nat.
Proof.
  induction a as [|[k [l|]] a IH]; simpl; [reflexivity|rewrite IH; lia|exact IH].
Qed.

Lemma idCount_reverse b : idCount (reverse b) = idCount b.
Proof.
  induction b as [|e b IH]; [reflexivity|].
  rewrite reverse_cons, idCount_app, IH.
  destruct e as [k [l|]]; simpl; lia.
Qed.

Lemma idCount_lookup b p k l :
  b !! p = Some (k, Ids l) ->
  idCount b = (idCount (take p b) + length l + idCount (drop (S p) b))%nat.
Proof.
  intros Hp. rewrite <- (take_drop_middle b p _ Hp) at 1.
  rewrite idCount_app. simpl. lia.
Qed.

Lemma idCount_take_le p b : (idCount (take p b) <= idCount b)%nat.
Proof.
  rewrite <- (take_drop p b) at 2. rewrite idCount_app. lia.
Qed.

Lemma idCount_drop_le p b : (idCount (drop p b) <= idCount b)%nat.
Proof.
  rewrite <- (take_drop p b) at 2. rewrite idCount_app. lia.
Qed.

(** In a sorted bucket a key sits at one place. *)
Lemma keys_increasing_unique b i j k v v' :
  keys_increasing b = true ->
  b !! i = Some (k, v) -> b !! j = Some (k, v') -> i = j.
Proof.
  intros Hb Hi Hj.
  destruct (Nat.lt_trichotomy i j) as [Hlt|[Heq|Hgt]]; [|assumption|].
  - pose proof (keys_increasing_lookup b i j k v k v' Hb Hlt Hi Hj) as H.
    rewrite bytes_compare_refl in H. discriminate.
  - pose proof (keys_increasing_lookup b j i k v' k v Hb Hgt Hj Hi) as H.
    rewrite bytes_compare_refl in H. discriminate.
Qed.

(** When every upcoming entry decodes, the cap is not reached and the
    entries past a stopped key are stopped too, the scan returns and holds
    the ids it started with and those of every upcoming key that the end
    key lets through. *)
Lemma collect_complete rest limit keepEqual q allIDs :
  decodes rest ->
  Z.of_nat (length (IDs allIDs) + idCount rest) <= q ->
  (forall i j k v k' v', (i < j)%nat ->
     rest !! i = Some (k, v) -> rest !! j = Some (k', v') ->
     crossed limit keepEqual k = true -> crossed limit keepEqual k' = true) ->
  exists r,
    collect rest limit keepEqual q allIDs = Returned r /\
    (forall id, id ∈ IDs allIDs -> id ∈ IDs r) /\
    (forall k l id, (k, Ids l) ∈ rest -> crossed limit keepEqual k = false ->
       id ∈ l -> id ∈ IDs r).
Proof.
  revert allIDs. induction rest as [|[k v] rest IH]; intros allIDs Hdec Hq Hcl.
  - exists allIDs. simpl. split; [reflexivity|]. split; [auto|].
    intros k l id Hin. inversion Hin.
  - apply Forall_cons in Hdec as [Hv Hdec]. simpl in Hv.
    destruct v as [l|]; [|contradiction]. cbn [collect newIDs].
    destruct (crossed limit keepEqual k) eqn:Hc.
    + exists allIDs. split; [reflexivity|]. split; [auto|].
      intros k0 l0 id Hin Hk0. exfalso.
      apply elem_of_cons in Hin as [Heq|Hin].
      * inversion Heq; subst. congruence.
      * apply list_elem_of_lookup in Hin as [j Hj].
        rewrite (Hcl 0%nat (S j) k (Ids l) k0 (Ids l0)) in Hk0;
          [discriminate|lia|reflexivity|exact Hj|exact Hc].
    + pose proof (AddIDs_length allIDs (mkIDs l)) as Hlen.
      change (IDs (mkIDs l)) with l in Hlen. cbn [idCount] in Hq.
      assert (Hgt : (Z.of_nat (length (IDs (AddIDs allIDs (mkIDs l)))) >? q)
                    = false) by (rewrite Z.gtb_ltb; apply Z.ltb_ge; lia).
      rewrite Hgt.
      destruct (IH (AddIDs allIDs (mkIDs l)) Hdec) as (r & Hr & Hall & Hrest).
      * lia.
      * intros i j k1 v1 k2 v2 Hij Hi Hj.
        apply (Hcl (S i) (S j) k1 v1 k2 v2); [lia|exact Hi|exact Hj].
      * exists r. split; [exact Hr|]. split.
        -- intros id Hid. apply Hall, AddIDs_elem. now left.
        -- intros k0 l0 id Hin Hk0 Hid.
           apply elem_of_cons in Hin as [Heq|Hin].
           ++ inversion Heq; subst. apply Hall, AddIDs_elem. now right.
           ++ now apply (Hrest k0 l0).
Qed.

(** X9. Completeness of an increasing lookup from a key of the bucket:
    over a sorted bucket whose entries decode and hold no more ids than the
    cap, the lookup returns, and returns every id stored under a key in
    range. *)
Theorem getIDsForRangeOfValues_complete_increasing (i : indexType)
    (b : bucket) (from : bytes) (limit : option bytes) (keepEqual : bool)
    (v : stored) :
  getTx i = Returned b ->
  keys_increasing b = true ->
  decodes b ->
  Z.of_nat (idCount b) <= InternalQueryLimit (options i) ->
  (from, v) ∈ b ->
  exists r,
    getIDsForRangeOfValues i from limit keepEqual true = Some (Returned r) /\
    forall k id, stored_under b k id ->
                 in_range from limit keepEqual true k -> id ∈ IDs r.
Proof.
  intros Htx Hsorted Hdec Hq Hfrom.
  rewrite (getIDsForRangeOfValues_scan i b _ _ _ _ Htx).
  destruct (Seek (Cursor b) from) as [iter first] eqn:HS.
  apply Seek_position in HS as (_ & Hpos & Hfirst & Hbefore & Hat).
  cbv zeta. simpl fst. rewrite <- Hfirst. set (p := pos iter) in *.
  apply list_elem_of_lookup in Hfrom as [j0 Hj0].
  (* the cursor is on the start key *)
  assert (Hp : b !! p = Some (from, v)).
  { destruct (Nat.lt_trichotomy j0 p) as [Hlt|[Heq|Hgt]].
    - pose proof (Hbefore j0 from v Hlt Hj0) as H.
      rewrite bytes_compare_refl in H. discriminate.
    - now subst.
    - destruct first as [[kp vp]|] eqn:Hf.
      + pose proof (keys_increasing_lookup b p j0 kp vp from v Hsorted Hgt
                      (eq_sym Hfirst) Hj0) as H.
        now destruct (Hat kp vp eq_refl).
      + symmetry in Hfirst. apply lookup_ge_None in Hfirst.
        apply lookup_lt_Some in Hj0. lia. }
  rewrite Hfirst, Hp. simpl fmap.
  assert (Hdec' := Hdec).
  assert (Hv : exists l, v = Ids l).
  { unfold decodes in Hdec. rewrite Forall_lookup in Hdec.
    specialize (Hdec _ _ Hp). simpl in Hdec.
    destruct v as [l|]; [eauto|contradiction]. }
  destruct Hv as [l ->]. cbn [newIDs].
  rewrite bool_decide_eq_true_2 by reflexivity. cbn [andb].
  set (init := if keepEqual then AddIDs (mkIDs []) (mkIDs l) else mkIDs []).
  pose proof (idCount_lookup b p from l Hp) as Hcount.
  destruct (collect_complete (upcoming true b p) limit keepEqual
              (InternalQueryLimit (options i)) init) as (r & Hr & Hinit & Hup).
  - unfold upcoming, decodes. now apply Forall_drop.
  - unfold upcoming.
    assert ((length (IDs init) <= length l)%nat).
    { unfold init. destruct keepEqual; simpl; [|lia].
      apply (AddIDs_empty_length (mkIDs l)). }
    lia.
  - unfold upcoming. intros i1 j1 k1 v1 k2 v2 Hij Hi Hj Hc.
    rewrite lookup_drop in Hi, Hj.
    apply (crossed_upward limit keepEqual k1 k2 Hc).
    apply (keys_increasing_lookup b (S p + i1) (S p + j1) k1 v1 k2 v2);
      auto; lia.
  - exists r. split; [now rewrite Hr|].
    intros k id (l' & Hin & Hid) [[-> ->]|[Hlt Hk]].
    + apply Hinit. unfold init. apply AddIDs_elem. right. simpl.
      apply list_elem_of_lookup in Hin as [j Hj].
      assert (j = p) by (eapply keys_increasing_unique; eassumption).
      subst j. rewrite Hp in Hj. now inversion Hj; subst.
    + apply (Hup k l'); [|assumption|assumption].
      apply list_elem_of_lookup in Hin as [j Hj].
      unfold upcoming. apply list_elem_of_lookup.
      exists (j - S p)%nat. rewrite lookup_drop.
      assert (p < j)%nat.
      { destruct (Nat.lt_trichotomy j p) as [Hjp|[Heq|Hgt]]; [| |assumption].
        - pose proof (Hbefore j k (Ids l') Hjp Hj) as H.
          rewrite (bytes_compare_antisym from k), Hlt in H. discriminate.
        - subst j. rewrite Hp in Hj. inversion Hj; subst.
          rewrite bytes_compare_refl in Hlt. discriminate. }
      rewrite <- Hj. f_equal. lia.
Qed.

End ScanComplete.

Section ScanCompleteDecreasing.

Import IndexInternal RangeScan.

(** X10. Completeness of a decreasing lookup without end key, whether the
    start key is in the bucket or not: over a sorted bucket whose entries
    decode and hold no more ids than the cap, the lookup returns, and
    returns every id stored under a key below the start key, and under the
    start key itself when [keepEqual] is set. *)
Theorem getIDsForRangeOfValues_complete_decreasing (i : indexType)
    (b : bucket) (from : bytes) (keepEqual : bool) :
  getTx i = Returned b ->
  keys_increasing b = true ->
  decodes b ->
  Z.of_nat (idCount b) <= InternalQueryLimit (options i) ->
  exists r,
    getIDsForRangeOfValues i from None keepEqual false = Some (Returned r) /\
    forall k id, stored_under b k id ->
                 in_range from None keepEqual false k -> id ∈ IDs r.
Proof.
  intros Htx Hsorted Hdec Hq.
  rewrite (getIDsForRangeOfValues_scan i b _ _ _ _ Htx).
  destruct (Seek (Cursor b) from) as [iter first] eqn:HS.
  apply Seek_position in HS as (_ & Hpos & Hfirst & Hbefore & Hat).
  cbv zeta. simpl fst. rewrite <- Hfirst. set (p := pos iter) in *.
  (* what is stored at the cursor decodes *)
  assert (Hn : exists firstIDsValue,
             newIDs (snd <$> first) = Returned firstIDsValue /\
             (length (IDs firstIDsValue) + idCount (take p b)
                <= idCount b)%nat /\
             forall l, first = Some (from, Ids l) -> firstIDsValue = mkIDs l).
  { destruct first as [[kp [l|]]|] eqn:Hf; simpl.
    - exists (mkIDs l). split; [reflexivity|]. split.
      + rewrite (idCount_lookup b p kp l (eq_sym Hfirst)). simpl. lia.
      + intros l' H. now inversion H.
    - unfold decodes in Hdec. rewrite Forall_lookup in Hdec.
      now destruct (Hdec p _ (eq_sym Hfirst)).
    - exists (mkIDs []). split; [reflexivity|]. split.
      + simpl. apply idCount_take_le.
      + discriminate. }
  destruct Hn as (firstIDsValue & -> & Hcount & Hfrom).
  set (init := if bool_decide (fst <$> first = Some from) && keepEqual
               then AddIDs (mkIDs []) firstIDsValue else mkIDs []).
  destruct (collect_complete (upcoming false b p) None keepEqual
              (InternalQueryLimit (options i)) init) as (r & Hr & Hinit & Hup).
  - unfold upcoming, decodes. now apply Forall_reverse, Forall_take.
  - unfold upcoming. rewrite idCount_reverse.
    assert ((length (IDs init) <= length (IDs firstIDsValue))%nat).
    { unfold init. destruct (_ && _); simpl; [|lia].
      apply AddIDs_empty_length. }
    lia.
  - intros i1 j1 k1 v1 k2 v2 _ _ _ Hc. discriminate.
  - exists r. split; [now rewrite Hr|].
    intros k id (l' & Hin & Hid) Hrange.
    apply list_elem_of_lookup in Hin as [j Hj].
    (* on which side of the cursor the key sits *)
    assert (Hside : forall kp vp, first = Some (kp, vp) -> (p < j)%nat ->
                    bytes_compare from k = Lt).
    { intros kp vp Hf Hpj.
      pose proof (keys_increasing_lookup b p j kp vp k (Ids l') Hsorted Hpj
                    (eq_trans (eq_sym Hfirst) Hf) Hj) as Hlt.
      pose proof (Hat kp vp Hf) as Hge.
      destruct (bytes_compare kp from) eqn:Hkp; [| contradiction |].
      - apply bytes_compare_eq in Hkp. now subst.
      - rewrite (bytes_compare_antisym from kp) in Hkp.
        destruct (bytes_compare from kp) eqn:Hfk; try discriminate.
        eapply bytes_compare_trans; eassumption. }
    assert (Hlast : (p <= j)%nat -> exists kp vp, first = Some (kp, vp)).
    { intros Hpj. destruct first as [[kp vp]|]; [eauto|].
      symmetry in Hfirst. apply lookup_ge_None in Hfirst.
      apply lookup_lt_Some in Hj. lia. }
    destruct Hrange as [[-> ->]|[Hgt _]].
    + (* the start key *)
      apply Hinit.
      destruct (Nat.lt_trichotomy j p) as [Hjp|[Heq|Hpj]].
      * pose proof (Hbefore j from (Ids l') Hjp Hj) as H.
        rewrite bytes_compare_refl in H. discriminate.
      * subst j. rewrite Hj in Hfirst. subst first.
        unfold init. simpl. rewrite bool_decide_eq_true_2 by reflexivity.
        rewrite (Hfrom l' eq_refl). apply AddIDs_elem. now right.
      * destruct Hlast as (kp & vp & Hf); [lia|].
        pose proof (Hside kp vp Hf Hpj) as H.
        rewrite bytes_compare_refl in H. discriminate.
    + (* a key below the start key *)
      apply (Hup k l'); [|reflexivity|assumption].
      unfold upcoming. apply elem_of_reverse, elem_of_take.
      exists j. split; [assumption|].
      destruct (Nat.lt_trichotomy j p) as [Hjp|[Heq|Hpj]]; [assumption| |].
      * subst j. destruct Hlast as (kp & vp & Hf); [lia|].
        rewrite Hf in Hfirst. rewrite Hj in Hfirst. inversion Hfirst; subst.
        pose proof (Hat k (Ids l') eq_refl) as Hge.
        rewrite (bytes_compare_antisym from k), Hgt in Hge.
        now destruct Hge.
      * destruct Hlast as (kp & vp & Hf); [lia|].
        rewrite (Hside kp vp Hf Hpj) in Hgt. discriminate.
Qed.

Lemma getIDsForRangeOfValues_complete_decreasing_witness :
  let b := [(key "b", Ids ["1"]); (key "d", Ids ["2"]); (key "f", Ids ["3"])] in
  let i := mkIndexType "Email" 0 (mkOptions 1000) (Returned b) in
  exists r,
    getIDsForRangeOfValues i (key "e") None false false = Some (Returned r) /\
    forall k id, stored_under b k id ->
                 in_range (key "e") None false false k -> id ∈ IDs r.
Proof.
  apply (getIDsForRangeOfValues_complete_decreasing
           (mkIndexType "Email" 0 (mkOptions 1000)
              (Returned [(key "b", Ids ["1"]); (key "d", Ids ["2"]);
                         (key "f", Ids ["3"])]))).
  - reflexivity.
  - reflexivity.
  - repeat constructor; discriminate.
  - vm_compute. discriminate.
Defined.

Lemma getIDsForRangeOfValues_complete_increasing_witness :
  let b := [(key "b", Ids ["1"]); (key "d", Ids ["2"]); (key "f", Ids ["3"])] in
  let i := mkIndexType "Email" 0 (mkOptions 1000) (Returned b) in
  exists r,
    getIDsForRangeOfValues i (key "b") (Some (key "e")) true true
      = Some (Returned r) /\
    forall k id, stored_under b k id ->
                 in_range (key "b") (Some (key "e")) true true k -> id ∈ IDs r.
Proof.
  apply (getIDsForRangeOfValues_complete_increasing
           (mkIndexType "Email" 0 (mkOptions 1000)
              (Returned [(key "b", Ids ["1"]); (key "d", Ids ["2"]);
                         (key "f", Ids ["3"])]))
           _ (key "b") (Some (key "e")) true (Ids ["1"])).
  - reflexivity.
  - reflexivity.
  - repeat constructor; discriminate.
  - vm_compute. discriminate.
  - left.
Defined.

End ScanCompleteDecreasing.

(** ** Lookups of one value, damaged entries, bounds in the wrong order *)

Section LookupEdges.

Import IndexInternal RangeScan.

(** X11. A lookup of one value over a sorted bucket gives the ids stored
    under the key, the empty set without error when the key is not in the
    bucket, and the decoding error when what is stored does not decode. *)
Theorem getIDsForOneValue_lookup (i : indexType) (b : bucket)
    (indexedValue : bytes) :
  getTx i = Returned b ->
  keys_increasing b = true ->
  (forall l, (indexedValue, Ids l) ∈ b ->
     getIDsForOneValue i indexedValue = Returned (mkIDs l)) /\
  ((indexedValue, Corrupt) ∈ b ->
     getIDsForOneValue i indexedValue = Failed ErrCorruption) /\
  (indexedValue ∉ (fst <$> b) ->
     getIDsForOneValue i indexedValue = Returned (mkIDs [])).
Proof.
  intros Htx Hsorted. unfold getIDsForOneValue. rewrite Htx.
  assert (Hfound : forall v, (indexedValue, v) ∈ b ->
    snd <$> list_find (fun e => fst e = indexedValue) b
      = Some (indexedValue, v)).
  { intros v Hin. apply list_elem_of_lookup in Hin as [j Hj].
    destruct (list_find (fun e => fst e = indexedValue) b) as [[p [k v']]|]
      eqn:Hf.
    - apply list_find_Some in Hf as (Hp & Hk & _). simpl in Hk. subst k.
      assert (p = j) by (eapply keys_increasing_unique; eassumption).
      subst p. rewrite Hp in Hj. now inversion Hj.
    - apply list_find_None in Hf. rewrite Forall_lookup in Hf.
      now destruct (Hf j _ Hj). }
  split; [|split].
  - intros l Hin. now rewrite (Hfound _ Hin).
  - intros Hin. now rewrite (Hfound _ Hin).
  - intros Hnot.
    destruct (list_find (fun e => fst e = indexedValue) b) as [[p [k v']]|]
      eqn:Hf; [|reflexivity].
    apply list_find_Some in Hf as (Hp & Hk & _). simpl in Hk. subst k.
    destruct Hnot. apply (list_elem_of_fmap_2' fst _ (indexedValue, v'));
      [|reflexivity].
    apply list_elem_of_lookup. eauto.
Qed.

Lemma getIDsForOneValue_lookup_witness :
  let b := [(key "b", Ids ["1"]); (key "d", Ids ["2"])] in
  let i := mkIndexType "Email" 0 (mkOptions 1000) (Returned b) in
  (forall l, (key "d", Ids l) ∈ b ->
     getIDsForOneValue i (key "d") = Returned (mkIDs l)) /\
  ((key "d", Corrupt) ∈ b ->
     getIDsForOneValue i (key "d") = Failed ErrCorruption) /\
  (key "d" ∉ (fst <$> b) ->
     getIDsForOneValue i (key "d") = Returned (mkIDs [])).
Proof.
  apply (getIDsForOneValue_lookup
           (mkIndexType "Email" 0 (mkOptions 1000)
              (Returned [(key "b", Ids ["1"]); (key "d", Ids ["2"])]))
           [(key "b", Ids ["1"]); (key "d", Ids ["2"])] (key "d"));
    reflexivity.
Defined.

(** X12. What [Seek] lands on is decoded before anything else is looked
    at: when it does not decode the range lookup fails with the decoding
    error, in either direction, with or without [keepEqual], even though its
    ids would not be part of the result. *)
Theorem getIDsForRangeOfValues_corrupt_seek (i : indexType)
    (pre post : bucket) (k from : bytes) (limit : option bytes)
    (keepEqual increasing : bool) :
  getTx i = Returned (pre ++ (k, Corrupt) :: post) ->
  Forall (fun e => bytes_compare (fst e) from = Lt) pre ->
  bytes_compare k from <> Lt ->
  getIDsForRangeOfValues i from limit keepEqual increasing
    = Some (Failed ErrCorruption).
Proof.
  intros Htx Hpre Hk. unfold getIDsForRangeOfValues. rewrite Htx.
  unfold Seek, Cursor. simpl entries.
  rewrite (list_find_first _ pre (k, Corrupt) post).
  - reflexivity.
  - eapply Forall_impl; [exact Hpre|]. simpl. intros e He Hn. contradiction.
  - exact Hk.
Qed.

Lemma getIDsForRangeOfValues_corrupt_seek_witness :
  getIDsForRangeOfValues
    (mkIndexType "Email" 0 (mkOptions 1000)
       (Returned ([(key "b", Ids ["1"])] ++ (key "d", Corrupt) :: [])))
    (key "c") None false false
  = Some (Failed ErrCorruption).
Proof.
  apply (getIDsForRangeOfValues_corrupt_seek
           (mkIndexType "Email" 0 (mkOptions 1000)
              (Returned ([(key "b", Ids ["1"])] ++ (key "d", Corrupt) :: [])))
           [(key "b", Ids ["1"])] [] (key "d") (key "c") None false false).
  - reflexivity.
  - repeat constructor.
  - discriminate.
Defined.

(** X13. Bounds in the wrong order: an increasing lookup whose end key is
    below its start key returns nothing but ids stored under the start key
    itself, and those only with [keepEqual] set. *)
Theorem getIDsForRangeOfValues_reversed_bounds (i : indexType) (b : bucket)
    (from to : bytes) (keepEqual : bool) (r : idsType) (id : string) :
  getTx i = Returned b ->
  keys_increasing b = true ->
  bytes_compare to from = Lt ->
  getIDsForRangeOfValues i from (Some to) keepEqual true = Some (Returned r) ->
  id ∈ IDs r ->
  keepEqual = true /\ stored_under b from id.
Proof.
  intros Htx Hsorted Hlt Hres Hid.
  destruct (range_lookup_sound i b from (Some to) keepEqual true
              r id Htx Hsorted Hres Hid) as (k & Hst & [[-> Hk]|[Hfk Hc]]).
  - auto.
  - exfalso. unfold crossed in Hc.
    rewrite (bytes_compare_trans _ _ _ Hlt Hfk) in Hc. discriminate.
Qed.

Lemma getIDsForRangeOfValues_reversed_bounds_witness :
  let b := [(key "b", Ids ["1"]); (key "d", Ids ["2"]); (key "f", Ids ["3"])] in
  true = true /\ stored_under b (key "d") "2".
Proof.
  apply (getIDsForRangeOfValues_reversed_bounds
           (mkIndexType "Email" 0 (mkOptions 1000)
              (Returned [(key "b", Ids ["1"]); (key "d", Ids ["2"]);
                         (key "f", Ids ["3"])]))
           [(key "b", Ids ["1"]); (key "d", Ids ["2"]); (key "f", Ids ["3"])]
           (key "d") (key "a") true (mkIDs ["2"]) "2").
  - reflexivity.
  - reflexivity.
  - reflexivity.
  - vm_compute. reflexivity.
  - simpl. apply list_elem_of_singleton. reflexivity.
Defined.

End LookupEdges.

(** ** The queries of an index *)

Section QueryFacts.

Import Filters IndexInternal RangeScan IndexQueries.

(** A run of rejected values leaves a new filter without values. *)
Lemma CompareToAll_all_rejected t vals :
  forallb (fun v => negb (indexable v)) vals = true ->
  CompareToAll (NewFilter t) vals = NewFilter t.
Proof.
  unfold CompareToAll. generalize (NewFilter t) as f.
  induction vals as [|v vals IH]; intros f Hall; [reflexivity|].
  simpl in *. apply andb_prop in Hall as [Hv Hall].
  apply negb_true_iff in Hv. unfold CompareTo at 2.
  rewrite (not_indexable_fails _ Hv). now apply IH.
Qed.

(** X14. A Greater or Less query on a filter that was given no value, or
    only values [CompareTo] rejected, panics: [filter.values[0]] is out of
    range. Nothing is looked up. *)
Theorem queryGreaterLess_without_value
    (stringToBytes intToBytes timeToBytes : GoValue -> option bytes)
    (i : indexType) (ids : idsType)
    (t : FilterOperator) (vals : list GoValue) :
  forallb (fun v => negb (indexable v)) vals = true ->
  queryGreaterLess stringToBytes intToBytes timeToBytes i ids
    (CompareToAll (NewFilter t) vals)
  = Some (Panicked IndexOutOfRange).
Proof.
  intros Hall. now rewrite (CompareToAll_all_rejected t vals Hall).
Qed.

Lemma queryGreaterLess_without_value_witness :
  queryGreaterLess (fun _ => None) (fun _ => None) (fun _ => None)
    (mkIndexType "Balance" 0 (mkOptions 1000) (Returned []))
    (mkIDs [])
    (CompareToAll (NewFilter Greater) [GoFloat64 (S754_finite false 3 (-1))])
  = Some (Panicked IndexOutOfRange).
Proof.
  apply (queryGreaterLess_without_value (fun _ => None) (fun _ => None)
           (fun _ => None)
           (mkIndexType "Balance" 0 (mkOptions 1000) (Returned []))
           (mkIDs []) Greater [GoFloat64 (S754_finite false 3 (-1))]).
  reflexivity.
Defined.

(** X15. The range a Between query looks up is the one between the first
    and the last accepted value of the filter: whatever was compared to in
    between, the lookup starts at the bytes of the first value and ends at
    the bytes of the last. *)
Theorem queryBetween_bounds
    (stringToBytes intToBytes timeToBytes : GoValue -> option bytes)
    (i : indexType) (ids : idsType) (f : Filter) (a z : GoValue)
    (mid : list GoValue) (fa fz : filterValue) :
  operator f = Between -> values f = None ->
  newfilterValue a = Returned fa -> newfilterValue z = Returned fz ->
  queryBetween stringToBytes intToBytes timeToBytes i ids
    (CompareToAll f (a :: mid ++ [z]))
  = addLookup ids
      (getIDsForRangeOfValues i
         (asKey (Bytes stringToBytes intToBytes timeToBytes fa))
         (Bytes stringToBytes intToBytes timeToBytes fz)
         (equal f) true).
Proof.
  intros Hop Hnil Ha Hz.
  destruct (CompareToAll_between_first_last f a z mid fa fz Hop Hnil Ha Hz)
    as [rest Hvs].
  assert (Heq : equal (CompareToAll f (a :: mid ++ [z])) = equal f).
  { generalize (a :: mid ++ [z]). clear. intros vals. revert f.
    unfold CompareToAll.
    induction vals as [|v vals IH]; intros f; simpl; [reflexivity|].
    rewrite IH. apply CompareTo_equal. }
  unfold queryBetween. rewrite Hvs, Heq. reflexivity.
Qed.

Lemma queryBetween_bounds_witness :
  queryBetween (fun v => match v with GoString s => Some (key s) | _ => None end)
    (fun _ => None) (fun _ => None)
    (mkIndexType "Email" 0 (mkOptions 1000)
       (Returned [(key "m", Ids ["1"]); (key "n", Ids ["2"])]))
    (mkIDs [])
    (CompareToAll (NewFilter Between)
       (GoString "m" :: [GoString "p"] ++ [GoString "u"]))
  = Some (Returned (mkIDs ["2"])).
Proof.
  rewrite (queryBetween_bounds _ _ _ _ _ (NewFilter Between)
             (GoString "m") (GoString "u") [GoString "p"]
             (mkFilterValue StringIndex (GoString "m"))
             (mkFilterValue StringIndex (GoString "u"))
             eq_refl eq_refl eq_refl eq_refl).
  reflexivity.
Defined.

(** X16. Every id a Between query adds to the ids it was given is stored
    under a key between the two bounds: the start key itself when the
    filter wants equality, or a key above it that the end key lets
    through. A failed lookup adds nothing. *)
Theorem queryBetween_sound
    (stringToBytes intToBytes timeToBytes : GoValue -> option bytes)
    (i : indexType) (b : bucket) (ids r : idsType) (f : Filter)
    (value0 value1 : filterValue) (rest : list filterValue) (id : string) :
  getTx i = Returned b ->
  keys_increasing b = true ->
  values f = Some (value0 :: value1 :: rest) ->
  queryBetween stringToBytes intToBytes timeToBytes i ids f
    = Some (Returned r) ->
  id ∈ IDs r ->
  id ∈ IDs ids \/
  exists k, stored_under b k id /\
            in_range (asKey (Bytes stringToBytes intToBytes timeToBytes value0))
              (Bytes stringToBytes intToBytes timeToBytes value1)
              (equal f) true k.
Proof.
  intros Htx Hsorted Hvs. unfold queryBetween. rewrite Hvs. simpl.
  destruct (getIDsForRangeOfValues i _ _ (equal f) true)
    as [[tmpIDs|e|p]|] eqn:Hl; simpl; try discriminate.
  - intros H Hid. inversion H; subst.
    apply AddIDs_elem in Hid as [Hid|Hid]; [now left|right].
    eapply range_lookup_sound; eassumption.
  - intros H Hid. inversion H; subst. now left.
Qed.

Lemma queryBetween_sound_witness :
  let b := [(key "m", Ids ["1"]); (key "n", Ids ["2"])] in
  "2" ∈ IDs (mkIDs []) \/
  exists k, stored_under b k "2" /\
            in_range (key "m") (Some (key "u")) false true k.
Proof.
  apply (queryBetween_sound
           (fun v => match v with GoString s => Some (key s) | _ => None end)
           (fun _ => None) (fun _ => None)
           (mkIndexType "Email" 0 (mkOptions 1000)
              (Returned [(key "m", Ids ["1"]); (key "n", Ids ["2"])]))
           [(key "m", Ids ["1"]); (key "n", Ids ["2"])]
           (mkIDs []) (mkIDs ["2"])
           (CompareToAll (NewFilter Between) [GoString "m"; GoString "u"])
           (mkFilterValue StringIndex (GoString "m"))
           (mkFilterValue StringIndex (GoString "u")) [] "2").
  - reflexivity.
  - reflexivity.
  - reflexivity.
  - vm_compute. reflexivity.
  - simpl. apply list_elem_of_singleton. reflexivity.
Defined.

(** X17. Every id a Greater or Less query adds to the ids it was given is
    stored under a key on the side the operator asks for: below the value
    for Less, above it for every other operator, or under the value itself
    when the filter wants equality. *)
Theorem queryGreaterLess_sound
    (stringToBytes intToBytes timeToBytes : GoValue -> option bytes)
    (i : indexType) (b : bucket) (ids r : idsType) (f : Filter)
    (value0 : filterValue) (rest : list filterValue) (id : string) :
  getTx i = Returned b ->
  keys_increasing b = true ->
  values f = Some (value0 :: rest) ->
  queryGreaterLess stringToBytes intToBytes timeToBytes i ids f
    = Some (Returned r) ->
  id ∈ IDs r ->
  id ∈ IDs ids \/
  exists k, stored_under b k id /\
            in_range (asKey (Bytes stringToBytes intToBytes timeToBytes value0))
              None (equal f)
              (if decide (operator f = Less) then false else true) k.
Proof.
  intros Htx Hsorted Hvs. unfold queryGreaterLess, GetType. rewrite Hvs. simpl.
  destruct (getIDsForRangeOfValues i _ None (equal f) _)
    as [[tmpIDs|e|p]|] eqn:Hl; simpl; try discriminate.
  - intros H Hid. inversion H; subst.
    apply AddIDs_elem in Hid as [Hid|Hid]; [now left|right].
    eapply range_lookup_sound; eassumption.
  - intros H Hid. inversion H; subst. now left.
Qed.

Lemma queryGreaterLess_sound_witness :
  let b := [(key "m", Ids ["1"]); (key "n", Ids ["2"])] in
  "1" ∈ IDs (mkIDs []) \/
  exists k, stored_under b k "1" /\
            in_range (key "n") None false false k.
Proof.
  apply (queryGreaterLess_sound
           (fun v => match v with GoString s => Some (key s) | _ => None end)
           (fun _ => None) (fun _ => None)
           (mkIndexType "Email" 0 (mkOptions 1000)
              (Returned [(key "m", Ids ["1"]); (key "n", Ids ["2"])]))
           [(key "m", Ids ["1"]); (key "n", Ids ["2"])]
           (mkIDs []) (mkIDs ["1"])
           (CompareTo (NewFilter Less) (GoString "n"))
           (mkFilterValue StringIndex (GoString "n")) [] "1").
  - reflexivity.
  - reflexivity.
  - reflexivity.
  - vm_compute. reflexivity.
  - simpl. apply list_elem_of_singleton. reflexivity.
Defined.

End QueryFacts.

(** ** What an index takes and what a filter can ask for *)

Section IndexedAndAsked.

Import Filters Indexes IndexInternal IndexApply.

(** X18. An index of the Bytes type takes byte slices and nothing else,
    whatever the conversions do, and a byte slice is a value no filter
    accepts: what such an index holds cannot be compared to, and what a
    filter can be compared to is never taken by such an index. *)
Theorem testType_bytes_not_comparable
    (StringToBytes IntToBytes TimeToBytes : GoValue -> outcome bytes)
    (i : Index) (value : GoValue) :
  Indexes.Type_ i = BytesIndex ->
  (forall content,
     testType StringToBytes IntToBytes TimeToBytes i value
       = Returned (Some content) ->
     value = GoBytes content /\
     newfilterValue value = Failed ErrWrongType /\
     forall f, CompareTo f value = f) /\
  (indexable value = true ->
   testType StringToBytes IntToBytes TimeToBytes i value = Returned None).
Proof.
  intros Ht. unfold testType. rewrite Ht. split.
  - intros content. destruct value; intros H; inversion H; subst.
    repeat split.
  - destruct value; try discriminate; reflexivity.
Qed.

Lemma testType_bytes_not_comparable_witness :
  let i := mkIndex "Raw" ["Raw"] BytesIndex in
  let conv := fun _ : GoValue => @Failed bytes ErrWrongType in
  (forall content,
     testType conv conv conv i (GoBytes (key "raw")) = Returned (Some content) ->
     GoBytes (key "raw") = GoBytes content /\
     newfilterValue (GoBytes (key "raw")) = Failed ErrWrongType /\
     forall f, CompareTo f (GoBytes (key "raw")) = f) /\
  (indexable (GoBytes (key "raw")) = true ->
   testType conv conv conv i (GoBytes (key "raw")) = Returned None).
Proof.
  apply (testType_bytes_not_comparable
           (fun _ => Failed ErrWrongType) (fun _ => Failed ErrWrongType)
           (fun _ => Failed ErrWrongType)
           (mkIndex "Raw" ["Raw"] BytesIndex) (GoBytes (key "raw"))).
  reflexivity.
Defined.

(** X19. What [DoesFilterApplyToIndex] decides: it returns true exactly
    when the index selector is a prefix of the filter selector and one
    value of the filter has the type of the index. *)
Theorem DoesFilterApplyToIndex_true_iff (i : Index) (f : Filter) :
  DoesFilterApplyToIndex i f = Returned true <->
  Selector i `prefix_of` selector f /\
  exists fv, fv ∈ default [] (values f) /\ Filters.Type_ fv = Indexes.Type_ i.
Proof. apply DoesFilterApplyToIndex_true. Qed.

(** X20. When [DoesFilterApplyToIndex] panics: exactly when the filter
    selector is a proper prefix of the index selector, and then with an
    index out of range. *)
Theorem DoesFilterApplyToIndex_panics_iff (i : Index) (f : Filter) (p : panic) :
  DoesFilterApplyToIndex i f = Panicked p <->
  p = IndexOutOfRange /\ selector f `prefix_of` Selector i /\
  (length (selector f) < length (Selector i))%nat.
Proof. apply DoesFilterApplyToIndex_panics. Qed.

(** X21. Every value of a filter obtained through [NewFilter],
    [CompareTo], [EqualWanted] and [SetSelector] is tagged String, Int or
    Time. *)
Theorem built_filter_tags (buildSelectorHash : list string -> Z) (f : Filter) :
  built buildSelectorHash f ->
  Forall (fun fv => filter_tag (Filters.Type_ fv)) (default [] (values f)).
Proof. apply built_values_tagged. Qed.

Lemma built_filter_tags_witness :
  Forall (fun fv => filter_tag (Filters.Type_ fv))
    (default [] (values (CompareTo (NewFilter Equal) (GoUint 19)))).
Proof.
  apply (built_filter_tags (fun _ => 0)
           (CompareTo (NewFilter Equal) (GoUint 19))).
  repeat constructor.
Defined.

(** X22. An index of the Bytes type answers no filter obtained through
    the methods: the call never returns true, and returns false whenever
    the filter selector is at least as long as the index selector. *)
Theorem DoesFilterApplyToIndex_bytes (buildSelectorHash : list string -> Z)
    (i : Index) (f : Filter) :
  built buildSelectorHash f -> Indexes.Type_ i = BytesIndex ->
  DoesFilterApplyToIndex i f <> Returned true /\
  ((length (Selector i) <= length (selector f))%nat ->
   DoesFilterApplyToIndex i f = Returned false).
Proof.
  intros Hb Ht. split.
  - now apply (DoesFilterApplyToIndex_bytes_never_true buildSelectorHash).
  - now apply (DoesFilterApplyToIndex_bytes_false buildSelectorHash).
Qed.

Lemma DoesFilterApplyToIndex_bytes_witness :
  let i := mkIndex "Raw" ["Raw"] BytesIndex in
  let f := CompareTo (SetSelector (fun _ => 0) (NewFilter Equal) ["Raw"])
             (GoString "x") in
  DoesFilterApplyToIndex i f <> Returned true /\
  ((length (Selector i) <= length (selector f))%nat ->
   DoesFilterApplyToIndex i f = Returned false).
Proof.
  apply (DoesFilterApplyToIndex_bytes (fun _ => 0)
           (mkIndex "Raw" ["Raw"] BytesIndex)
           (CompareTo (SetSelector (fun _ => 0) (NewFilter Equal) ["Raw"])
              (GoString "x"))).
  - repeat constructor.
  - reflexivity.
Defined.

End IndexedAndAsked.

(** ** The cap and the skipped key, in general *)

Section RangeGeneral.

Import IndexInternal.

(** X23. The cap of a range lookup: with a cap that is not negative the
    lookup returns at most that many ids, unless [keepEqual] is set and the
    ids stored under the start key alone are as many as it returns. *)
Theorem getIDsForRangeOfValues_cap (i : indexType) (b : bucket)
    (indexedValue : bytes) (limit : option bytes)
    (keepEqual increasing : bool) (r : idsType) :
  getTx i = Returned b ->
  0 <= InternalQueryLimit (options i) ->
  getIDsForRangeOfValues i indexedValue limit keepEqual increasing
    = Some (Returned r) ->
  (length (IDs r) <= Z.to_nat (InternalQueryLimit (options i)))%nat \/
  (keepEqual = true /\
   exists l, (indexedValue, Ids l) ∈ b /\ (length (IDs r) <= length l)%nat).
Proof. apply getIDsForRangeOfValues_bound. Qed.

Lemma getIDsForRangeOfValues_cap_witness :
  let b := [(key "b", Ids ["1"; "2"]); (key "d", Ids ["3"; "4"])] in
  (length (IDs (mkIDs ["3"])) <= Z.to_nat 1)%nat \/
  (false = true /\
   exists l, (key "b", Ids l) ∈ b /\ (length (IDs (mkIDs ["3"])) <= length l)%nat).
Proof.
  apply (getIDsForRangeOfValues_cap
           (mkIndexType "Age" 0 (mkOptions 1)
              (Returned [(key "b", Ids ["1"; "2"]); (key "d", Ids ["3"; "4"])]))
           [(key "b", Ids ["1"; "2"]); (key "d", Ids ["3"; "4"])]
           (key "b") None false true (mkIDs ["3"])).
  - reflexivity.
  - simpl. lia.
  - vm_compute. reflexivity.
Defined.

(** X24. An increasing lookup from a key that is not in the bucket leaves
    out the first key above it: whatever ids are stored under that key, the
    result is the same. *)
Theorem getIDsForRangeOfValues_first_key_above (i i' : indexType)
    (pre post : bucket) (k from : bytes) (l l' : list string)
    (limit : option bytes) (keepEqual : bool) :
  getTx i = Returned (pre ++ (k, Ids l) :: post) ->
  getTx i' = Returned (pre ++ (k, Ids l') :: post) ->
  options i' = options i ->
  Forall (fun e => bytes_compare (fst e) from = Lt) pre ->
  bytes_compare from k = Lt ->
  getIDsForRangeOfValues i from limit keepEqual true
    = getIDsForRangeOfValues i' from limit keepEqual true.
Proof. apply getIDsForRangeOfValues_next_key_ignored. Qed.

Lemma getIDsForRangeOfValues_first_key_above_witness :
  getIDsForRangeOfValues
    (mkIndexType "Email" 0 (mkOptions 1000)
       (Returned ([(key "b", Ids ["1"])] ++ (key "d", Ids ["2"])
                  :: [(key "f", Ids ["3"])])))
    (key "c") None false true
  = getIDsForRangeOfValues
      (mkIndexType "Email" 0 (mkOptions 1000)
         (Returned ([(key "b", Ids ["1"])] ++ (key "d", Ids ["7"; "8"])
                    :: [(key "f", Ids ["3"])])))
      (key "c") None false true.
Proof.
  apply (getIDsForRangeOfValues_first_key_above _ _
           [(key "b", Ids ["1"])] [(key "f", Ids ["3"])] (key "d") (key "c")
           ["2"] ["7"; "8"] None false).
  - reflexivity.
  - reflexivity.
  - reflexivity.
  - repeat constructor.
  - reflexivity.
Defined.

End RangeGeneral.

(** ** References of distinct values *)

Section ReferenceInjective.

Import Meta.

(** X25. Two supported values that are not zero and give the same
    reference under an index name are the same value, dynamic type
    included. *)
Theorem newIndexReference_injective (indexName : string) (v w : GoValue) :
  supported v = true -> supported w = true ->
  is_zero_value v = false -> is_zero_value w = false ->
  newIndexReference indexName v = newIndexReference indexName w ->
  v = w.
Proof.
  intros Hv Hw Hzv Hzw H.
  assert (Hg : GetValue (newIndexReference indexName v)
               = GetValue (newIndexReference indexName w)) by now rewrite H.
  assert (Hround : forall u, supported u = true -> is_zero_value u = false ->
            GetValue (newIndexReference indexName u) = Some u).
  { clear. intros u Hs Hz.
    destruct u; try discriminate; unfold GetValue; simpl in *;
      rewrite ?Hz; reflexivity. }
  rewrite (Hround v Hv Hzv), (Hround w Hw Hzw) in Hg. now inversion Hg.
Qed.

Lemma newIndexReference_injective_witness :
  GoUint8 19 = GoUint8 19.
Proof.
  apply (newIndexReference_injective "Age" (GoUint8 19) (GoUint8 19));
    reflexivity.
Defined.

End ReferenceInjective.

(** ** References without a value *)

Section ReferenceEmpty.

Import Meta MetaEmpty.

(** X26. [GetValue] gives nil exactly when every value field of the
    reference is the zero of its type, whatever the reference was built or
    decoded from. *)
Theorem GetValue_nil_iff (ref : IndexReference) :
  GetValue ref = None <-> allZero ref.
Proof.
  unfold GetValue, allZero.
  destruct (bool_decide (StringValue ref = "")) eqn:Hs; simpl;
    [apply bool_decide_eq_true in Hs
    |apply bool_decide_eq_false in Hs; split; [discriminate|tauto]].
  repeat match goal with
  | |- context [negb (?x =? 0)] =>
      destruct (Z.eqb_spec x 0); simpl; [|split; [discriminate|tauto]]
  end.
  destruct (float_is_zero (Float32Value ref)); simpl;
    [|split; [discriminate|intuition discriminate]].
  destruct (float_is_zero (Float64Value ref)); simpl;
    [|split; [discriminate|intuition discriminate]].
  destruct (IsZero (TimeValue ref)); simpl;
    [|split; [discriminate|intuition discriminate]].
  split; [intros _; tauto|reflexivity].
Qed.

End ReferenceEmpty.

